(** * Sequential section reconstruction of pdf_to_text_grobid_LangChain.py

    A shallow embedding of [process_sequential_sections] and the helpers it
    calls.  Python strings are modelled as lists of ASCII characters; the
    character classes [\s], [\d], [A-Z] and the methods [strip], [lower],
    [split] are written out for that alphabet.  A raised [ValueError] is
    [None] in the [option] monad. *)

From Stdlib Require Import Ascii String List ZArith Bool Lia Permutation Sorted.
Import ListNotations.

Definition str := list ascii.
Definition lit (s : string) : str := list_ascii_of_string s.

Definition str_eqb (s t : str) : bool :=
  if list_eq_dec ascii_dec s t then true else false.

(** ** Character classes *)

(** [str.isspace] / [\s] on ASCII: tab, newline, vertical tab, form feed,
    carriage return, the four separators 0x1c-0x1f, and space. *)
Definition is_space (c : ascii) : bool :=
  let n := nat_of_ascii c in
  ((9 <=? n) && (n <=? 13)) || ((28 <=? n) && (n <=? 32))%nat.

Definition is_digit (c : ascii) : bool :=
  let n := nat_of_ascii c in ((48 <=? n) && (n <=? 57))%nat.

Definition is_upper (c : ascii) : bool :=
  let n := nat_of_ascii c in ((65 <=? n) && (n <=? 90))%nat.

Definition digit_val (c : ascii) : Z := Z.of_nat (nat_of_ascii c - 48).

Definition to_lower_char (c : ascii) : ascii :=
  if is_upper c then ascii_of_nat (nat_of_ascii c + 32) else c.

Definition lower (s : str) : str := map to_lower_char s.

Definition pipe : ascii := "|"%char.
Definition newline : ascii := "010"%char.
Definition underscore : ascii := "_"%char.

(** ** String methods *)

Fixpoint lstrip (s : str) : str :=
  match s with
  | [] => []
  | c :: r => if is_space c then lstrip r else s
  end.

Definition rstrip (s : str) : str := rev (lstrip (rev s)).

(** [s.strip()] *)
Definition strip (s : str) : str := rstrip (lstrip s).

(** [s.split('\n')] *)
Fixpoint split_nl (s : str) : list str :=
  match s with
  | [] => [[]]
  | c :: r =>
      let rest := split_nl r in
      if ascii_dec c newline then [] :: rest
      else match rest with
           | [] => [[c]]
           | l :: ls => (c :: l) :: ls
           end
  end.

(** [' '.join(parts)] *)
Fixpoint join (sep : str) (parts : list str) : str :=
  match parts with
  | [] => []
  | [x] => x
  | x :: r => x ++ sep ++ join sep r
  end.

Fixpoint is_prefix (p s : str) : bool :=
  match p, s with
  | [], _ => true
  | a :: p', b :: s' => if ascii_dec a b then is_prefix p' s' else false
  | _ :: _, [] => false
  end.

(** [needle in hay] *)
Fixpoint is_substring (needle hay : str) : bool :=
  is_prefix needle hay ||
  match hay with
  | [] => false
  | _ :: r => is_substring needle r
  end.

Definition count {A} (p : A -> bool) (l : list A) : nat := length (filter p l).

(** ** Regular-expression fragments

    The patterns of the source only use character classes that are pairwise
    disjoint at each junction ([\s+] followed by [\d], [\d+] followed by
    [\s], ...), so a greedy matcher without backtracking decides them. *)

(** [re.search(pat, s)]: the pattern matches a prefix of some suffix. *)
Fixpoint search (m : str -> bool) (s : str) : bool :=
  m s || match s with [] => false | _ :: r => search m r end.

(** Suffixes at which [^] matches under [re.MULTILINE]. *)
Fixpoint after_newlines (s : str) : list str :=
  match s with
  | [] => []
  | c :: r => if ascii_dec c newline then r :: after_newlines r
              else after_newlines r
  end.

Definition search_multiline_anchored (m : str -> bool) (s : str) : bool :=
  existsb m (s :: after_newlines s).

Fixpoint drop_while (p : ascii -> bool) (s : str) : str :=
  match s with
  | [] => []
  | c :: r => if p c then drop_while p r else s
  end.

(** [\s+] then [k] *)
Definition ws1_then (k : str -> bool) (s : str) : bool :=
  match s with c :: r => is_space c && k (lstrip r) | [] => false end.

(** [\d+] then [k] *)
Definition digits1_then (k : str -> bool) (s : str) : bool :=
  match s with c :: r => is_digit c && k (drop_while is_digit r) | [] => false end.

(** [[A-Z]] then [k] *)
Definition upper_then (k : str -> bool) (s : str) : bool :=
  match s with c :: r => is_upper c && k r | [] => false end.

Definition starts_digit1 (s : str) : bool :=
  match s with c :: _ => is_digit c | [] => false end.

Definition starts_upper1 (s : str) : bool :=
  match s with c :: _ => is_upper c | [] => false end.

(** Case-insensitive literal prefix; [p] is given in lower case. *)
Definition is_prefix_ci (p s : str) : bool := is_prefix p (lower s).

(** ** Python [int(s)] on a string

    Surrounding whitespace, an optional sign, and decimal digits with single
    underscores between digits; anything else raises [ValueError]. *)

Fixpoint digits_us_aux (acc : Z) (s : str) : option Z :=
  match s with
  | [] => Some acc
  | c :: r =>
      if is_digit c then digits_us_aux (acc * 10 + digit_val c) r
      else if ascii_dec c underscore then
        match r with
        | d :: r' => if is_digit d then digits_us_aux (acc * 10 + digit_val d) r'
                     else None
        | [] => None
        end
      else None
  end.

Definition digits_us (s : str) : option Z :=
  match s with
  | c :: r => if is_digit c then digits_us_aux (digit_val c) r else None
  | [] => None
  end.

(** The whitespace [int()] skips around its argument ([Py_ISSPACE]): tab,
    newline, vertical tab, form feed, carriage return and space, but not the
    separators 0x1c-0x1f that [str.strip] also removes. *)
Definition is_int_space (c : ascii) : bool :=
  let n := nat_of_ascii c in ((9 <=? n) && (n <=? 13)) || (n =? 32)%nat.

Fixpoint int_lstrip (s : str) : str :=
  match s with
  | [] => []
  | c :: r => if is_int_space c then int_lstrip r else s
  end.

Definition int_strip (s : str) : str := rev (int_lstrip (rev (int_lstrip s))).

Definition py_int (s : str) : option Z :=
  let t := int_strip s in
  match t with
  | c :: r =>
      if ascii_dec c "-"%char then option_map Z.opp (digits_us r)
      else if ascii_dec c "+"%char then digits_us r
      else digits_us t
  | [] => None
  end.

(** [str(n)] for an integer *)
Fixpoint digits_of_N (fuel : nat) (n : N) (acc : str) : str :=
  match fuel with
  | O => acc
  | S f =>
      let d := ascii_of_nat (48 + N.to_nat (N.modulo n 10)) in
      let q := N.div n 10 in
      if (q =? 0)%N then d :: acc else digits_of_N f q (d :: acc)
  end.

Definition str_of_N (n : N) : str := digits_of_N (S (N.size_nat n)) n [].

Definition str_of_Z (z : Z) : str :=
  match z with
  | Zneg p => "-"%char :: str_of_N (Npos p)
  | _ => str_of_N (Z.to_N z)
  end.


(** ** Fragments (LangChain documents) *)

(** Value of [metadata['pages']]: a string, a tuple whose first element is an
    int or a string, an empty tuple, or any other object. *)
Inductive pages_val :=
| PStr (s : str)
| PTupleInt (z : Z)
| PTupleStr (s : str)
| PEmptyTuple
| POther.

(** Value of [metadata['section_title']]: [None] or a string. *)
Inductive title_val :=
| TNone
| TStr (s : str).

(** A metadata dict; [None] in a field means the key is absent. *)
Record meta := mkMeta {
  m_pages : option pages_val;
  m_para : option str;
  m_section_title : option title_val
}.

Record doc := mkDoc {
  metadata : meta;
  page_content : str
}.

(** [extract_page_number(pages_str)] *)
Definition first_digit_run (s : str) : str :=
  let t := drop_while (fun c => negb (is_digit c)) s in
  let fix take (u : str) : str :=
    match u with [] => [] | c :: r => if is_digit c then c :: take r else [] end in
  take t.

Definition extract_page_number (p : pages_val) : Z :=
  match p with
  | PTupleInt z => z
  | PTupleStr s => match py_int s with Some z => z | None => 0%Z end
  | PEmptyTuple => 0%Z          (* IndexError, caught *)
  | PStr s =>
      match first_digit_run s with
      | [] => 0%Z
      | ds => match py_int ds with Some z => z | None => 0%Z end
      end
  | POther => 0%Z
  end.

(** [metadata.get('pages', '0')] *)
Definition get_pages (m : meta) : pages_val :=
  match m_pages m with Some p => p | None => PStr (lit "0") end.

Definition page_of (m : meta) : Z := extract_page_number (get_pages m).

(** [metadata.get('para', '0')] *)
Definition get_para (m : meta) : str :=
  match m_para m with Some s => s | None => lit "0" end.

(** [int(metadata.get('para', '0'))] *)
Definition para_index (m : meta) : option Z := py_int (get_para m).

(** [metadata.get('section_title', default)] *)
Definition get_title (m : meta) (default : str) : title_val :=
  match m_section_title m with Some t => t | None => TStr default end.

(** ** Classification *)

Inductive section_type := Header | Paragraph | Table | Figure.

Definition section_type_eqb (a b : section_type) : bool :=
  match a, b with
  | Header, Header | Paragraph, Paragraph | Table, Table | Figure, Figure => true
  | _, _ => false
  end.

(** [is_table_content(content)] *)
Definition table_pattern_pipe (s : str) : bool :=          (* \|\s* *)
  match s with c :: _ => if ascii_dec c pipe then true else false | [] => false end.

Definition table_pattern_spaced_pipe (s : str) : bool :=   (* \s+\|\s+ *)
  ws1_then (fun r => match r with
                     | c :: r' => if ascii_dec c pipe then ws1_then (fun _ => true) r'
                                  else false
                     | [] => false end) s.

Definition table_pattern_table_n (s : str) : bool :=       (* Table\s+\d+ *)
  is_prefix (lit "Table") s &&
  ws1_then starts_digit1 (skipn 5 s).

Definition table_pattern_numbers (s : str) : bool :=       (* ^\s*\d+\s+\d+\s+\d+ *)
  digits1_then (ws1_then (digits1_then (ws1_then starts_digit1))) (lstrip s).

Definition table_pattern_letters (s : str) : bool :=       (* ^\s*[A-Z]\s+[A-Z]\s+[A-Z] *)
  upper_then (ws1_then (upper_then (ws1_then starts_upper1))) (lstrip s).

Definition is_table_content (content : str) : bool :=
  if search table_pattern_pipe content then true
  else if search table_pattern_spaced_pipe content then true
  else if search table_pattern_table_n content then true
  else if search_multiline_anchored table_pattern_numbers content then true
  else if search_multiline_anchored table_pattern_letters content then true
  else
    let lines := split_nl content in
    if (2 <? length lines)%nat then
      (* pipe_count > len(lines) * 0.3 *)
      let pipe_count := count (fun l => existsb (fun c => if ascii_dec c pipe then true else false) l) lines in
      (3 * length lines <? 10 * pipe_count)%nat
    else false.

(** [is_figure_content(content)], patterns under [re.IGNORECASE] *)
Definition figure_pattern_figure_n (s : str) : bool :=     (* Figure\s+\d+ *)
  is_prefix_ci (lit "figure") s && ws1_then starts_digit1 (skipn 6 s).

Definition figure_pattern_fig_n (s : str) : bool :=        (* Fig\.\s+\d+ *)
  is_prefix_ci (lit "fig.") s && ws1_then starts_digit1 (skipn 4 s).

Definition is_figure_content (content : str) : bool :=
  search figure_pattern_figure_n content
  || search figure_pattern_fig_n content
  || search (is_prefix_ci (lit "[figure")) content
  || search (is_prefix_ci (lit "[image")) content
  || search (is_prefix_ci (lit "[graph")) content
  || search (is_prefix_ci (lit "[chart")) content.

(** The section title as tested by [determine_section_type]: truthy and not
    the string ['None']. *)
Definition title_hint (m : meta) : option str :=
  match m_section_title m with
  | Some (TStr s) => if (negb (str_eqb s [])) && negb (str_eqb s (lit "None"))
                     then Some s else None
  | _ => None           (* absent: default '' ; or None *)
  end.

(** [determine_section_type(metadata, content)] *)
Definition determine_section_type (m : meta) (content : str) : section_type :=
  match title_hint m with
  | Some section_title =>
      if (length (strip content) <? 200)%nat
         && is_substring (lower (strip content)) (lower section_title)
      then Header else Paragraph
  | None =>
      if is_table_content content then Table
      else if is_figure_content content then Figure
      else Paragraph
  end.

(** [is_purely_tabular(content)]

    [(pipe_lines + number_lines) / total_lines > 0.7] is a float comparison;
    it is written as the exact rational comparison, with which it agrees
    unless [total_lines] exceeds 10^15.  [text_lines] is computed by the
    source but never used. *)
Definition has_pipe (l : str) : bool :=
  existsb (fun c => if ascii_dec c pipe then true else false) l.

(** [re.match(r'^\s*\d+', line)] *)
Definition starts_with_number (l : str) : bool := starts_digit1 (lstrip l).

Definition non_blank (l : str) : bool := negb (str_eqb (strip l) []).

Definition is_purely_tabular (content : str) : bool :=
  let lines := split_nl content in
  let pipe_lines := count has_pipe lines in
  let number_lines := count starts_with_number lines in
  let total_lines := count non_blank lines in
  if (total_lines =? 0)%nat then true
  else (7 * total_lines <? 10 * (pipe_lines + number_lines))%nat.

(** [should_include_content(section_type, content)] *)
Definition should_include_content (ty : section_type) (content : str) : bool :=
  match ty with
  | Header | Paragraph => true
  | Table | Figure =>
      (50 <? length (strip content))%nat && negb (is_purely_tabular content)
  end.

(** [re.sub(r'\s+', ' ', title)]; the flag records that the scan is inside
    a whitespace run already replaced by a space. *)
Fixpoint sub_ws (in_run : bool) (s : str) : str :=
  match s with
  | [] => []
  | c :: r =>
      if is_space c then (if in_run then sub_ws true r else " "%char :: sub_ws true r)
      else c :: sub_ws false r
  end.

(** [clean_section_title(title)] *)
Definition clean_section_title (t : title_val) : str :=
  match t with
  | TNone => lit "Unknown Section"
  | TStr s =>
      if str_eqb s [] || str_eqb s (lit "None") then lit "Unknown Section"
      else sub_ws false (strip s)
  end.

(** ** Sections *)

Record section := mkSection {
  title : str;
  content : str;
  page : Z;
  paragraph : str;
  content_length : nat;
  type : section_type
}.

(** [create_paragraph_section({'metadata': m, 'content_parts': parts})] *)
Definition create_paragraph_section (m : meta) (parts : list str) : section :=
  let c := join [" "%char] parts in
  {| title := clean_section_title (get_title m (lit "Paragraph"));
     content := c;
     page := page_of m;
     paragraph := get_para m;
     content_length := length c;
     type := Paragraph |}.

(** The dict built for an included header, table or figure. *)
Definition make_section (m : meta) (c : str) (ty : section_type) : section :=
  {| title := clean_section_title (get_title m (lit "Unknown"));
     content := c;
     page := page_of m;
     paragraph := get_para m;
     content_length := length c;
     type := ty |}.

(** [should_continue_paragraph(current_metadata, previous_paragraph)];
    the previous paragraph is given by its metadata. *)
Definition should_continue_paragraph (cm : meta) (prev : option meta) : option bool :=
  match prev with
  | None => Some false
  | Some pm =>
      let current_page := page_of cm in
      let prev_page := page_of pm in
      match para_index cm, para_index pm with
      | Some current_para, Some prev_para =>
          Some (((current_page =? prev_page) && (current_para =? prev_para + 1))
                || ((current_page =? prev_page + 1) && (current_para =? 1)))%Z
      | _, _ => None
      end
  end.

(** [f"{page}_{para}_{content[:50]}"] *)
Definition section_id (m : meta) (c : str) : str :=
  str_of_Z (page_of m) ++ [underscore] ++ get_para m ++ [underscore] ++ firstn 50 c.

Definition mem (k : str) (l : list str) : bool := existsb (str_eqb k) l.

(** ** The accumulation pass

    [current_paragraph] is the dict [{'metadata': m, 'content_parts':
    paragraph_buffer}]; its list is the very object bound to
    [paragraph_buffer] (the continuation branch mutates it in place), so the
    state stores the dict's metadata in [current] and the shared list once,
    in [buffer]. *)
Record state := mkState {
  sections : list section;
  current : option meta;
  buffer : list str;
  seen : list str
}.

Definition init_state : state := mkState [] None [] [].

(** Emitting the open paragraph, if any. *)
Definition flush (st : state) : list section :=
  match current st with
  | Some pm => [create_paragraph_section pm (buffer st)]
  | None => []
  end.

(** One iteration of the [for] loop. *)
Definition step (st : state) (d : doc) : option state :=
  let m := metadata d in
  let c := strip (page_content d) in
  if str_eqb c [] then Some st else
  let ty := determine_section_type m c in
  let sid := section_id m c in
  if mem sid (seen st) then Some st else
  let seen' := sid :: seen st in
  match ty with
  | Paragraph =>
      match should_continue_paragraph m (current st) with
      | None => None
      | Some true =>
          Some (mkState (sections st) (Some m) (buffer st ++ [c]) seen')
      | Some false =>
          Some (mkState (sections st ++ flush st) (Some m) [c] seen')
      end
  | _ =>
      let secs := sections st ++ flush st in
      let secs' := if should_include_content ty c then secs ++ [make_section m c ty]
                   else secs in
      Some (mkState secs' None [] seen')
  end.

Fixpoint run (st : state) (l : list doc) : option state :=
  match l with
  | [] => Some st
  | d :: r => match step st d with Some st' => run st' r | None => None end
  end.

Definition finish (st : state) : list section := sections st ++ flush st.

(** ** Sorting

    [sorted(docs, key=...)] computes every key first (a [ValueError] of
    [int] propagates) and then sorts stably; any stable sort yields the same
    list, here insertion sort. *)
Definition sort_key (d : doc) : option (Z * Z) :=
  match para_index (metadata d) with
  | Some p => Some (page_of (metadata d), p)
  | None => None
  end.

Definition key_leb (a b : Z * Z) : bool :=
  (fst a <? fst b)%Z || ((fst a =? fst b)%Z && (snd a <=? snd b)%Z).

Fixpoint keyed (docs : list doc) : option (list ((Z * Z) * doc)) :=
  match docs with
  | [] => Some []
  | d :: r =>
      match sort_key d with
      | None => None
      | Some k => match keyed r with Some kr => Some ((k, d) :: kr) | None => None end
      end
  end.

Fixpoint insert (x : (Z * Z) * doc) (l : list ((Z * Z) * doc)) : list ((Z * Z) * doc) :=
  match l with
  | [] => [x]
  | y :: r => if key_leb (fst x) (fst y) then x :: l else y :: insert x r
  end.

Fixpoint isort (l : list ((Z * Z) * doc)) : list ((Z * Z) * doc) :=
  match l with
  | [] => []
  | x :: r => insert x (isort r)
  end.

Definition sorted_docs (docs : list doc) : option (list doc) :=
  match keyed docs with
  | Some kd => Some (map snd (isort kd))
  | None => None
  end.

(** [process_sequential_sections(docs)] *)
Definition process_sequential_sections (docs : list doc) : option (list section) :=
  match sorted_docs docs with
  | None => None
  | Some sd =>
      match run init_state sd with
      | Some st => Some (finish st)
      | None => None
      end
  end.

(** ** Concrete fragments used by the statements below *)

Definition frag (pg para : string) (t : option title_val) (txt : string) : doc :=
  mkDoc (mkMeta (Some (PStr (lit pg))) (Some (lit para)) t) (lit txt).

Definition spaces50 : string :=
  "                                                  ".

Definition merged_docs : list doc :=
  [frag "3" "5" (Some (TStr (lit "Methods"))) "first part";
   frag "4" "1" (Some (TStr (lit "Results"))) "second part"].

(** Second fragment: same key as the first; third: blank text. *)
Definition dup_docs : list doc :=
  [frag "2" "1" None "Patients were randomised";
   frag "2" "1" None "Patients were randomised";
   frag "2" "2" None "   "].

(** Two fragments with the same page, [para] and first 50 characters, whose
    texts differ further on. *)
Definition dup_long_docs : list doc :=
  [frag "2" "1" None "Patients were randomised to surgery or to watchful waiting.";
   frag "2" "1" None "Patients were randomised to surgery or to watchful waiting and followed up."].

Definition order_docs : list doc :=
  [frag "3" "2" None "world."; frag "3" "1" None "Hello";
   frag "1" "1" (Some (TStr (lit "Introduction"))) "Introduction"].

(** ** The pass with provenance

    The same loop, with each emitted Section paired with the positions (in
    the sorted list) of the fragments it was built from, and the positions
    of the open paragraph's fragments kept next to [paragraph_buffer].
    [erase] forgets the positions; [irun_erase] shows that nothing else
    changes. *)
Record istate := mkIState {
  isections : list (section * list nat);
  icurrent : option meta;
  ibuffer : list str;
  ipos : list nat;
  iseen : list str
}.

Definition iinit : istate := mkIState [] None [] [] [].

Definition erase (st : istate) : state :=
  mkState (map fst (isections st)) (icurrent st) (ibuffer st) (iseen st).

Definition iflush (st : istate) : list (section * list nat) :=
  match icurrent st with
  | Some pm => [(create_paragraph_section pm (ibuffer st), ipos st)]
  | None => []
  end.

Definition istep (st : istate) (jd : nat * doc) : option istate :=
  let j := fst jd in
  let m := metadata (snd jd) in
  let c := strip (page_content (snd jd)) in
  if str_eqb c [] then Some st else
  let ty := determine_section_type m c in
  let sid := section_id m c in
  if mem sid (iseen st) then Some st else
  let seen' := sid :: iseen st in
  match ty with
  | Paragraph =>
      match should_continue_paragraph m (icurrent st) with
      | None => None
      | Some true =>
          Some (mkIState (isections st) (Some m) (ibuffer st ++ [c]) (ipos st ++ [j]) seen')
      | Some false =>
          Some (mkIState (isections st ++ iflush st) (Some m) [c] [j] seen')
      end
  | _ =>
      let secs := isections st ++ iflush st in
      let secs' := if should_include_content ty c then secs ++ [(make_section m c ty, [j])]
                   else secs in
      Some (mkIState secs' None [] [] seen')
  end.

Fixpoint irun (st : istate) (l : list (nat * doc)) : option istate :=
  match l with
  | [] => Some st
  | jd :: r => match istep st jd with Some st' => irun st' r | None => None end
  end.

Definition ifinish (st : istate) : list (section * list nat) := isections st ++ iflush st.

Definition tagged (L : list doc) : list (nat * doc) := combine (seq 0 (length L)) L.

(** All positions that went into a Section or into the open paragraph. *)
Definition prov_all (st : istate) : list nat := concat (map snd (isections st)) ++ ipos st.

(** ** Fragments of the sorted list by position *)

Definition no_meta : meta := mkMeta None None None.
Definition doc_at (L : list doc) (j : nat) : doc := nth j L (mkDoc no_meta []).
Definition cont_at (L : list doc) (j : nat) : str := strip (page_content (doc_at L j)).
Definition meta_at (L : list doc) (j : nat) : meta := metadata (doc_at L j).
Definition key_at (L : list doc) (j : nat) : str := section_id (meta_at L j) (cont_at L j).
Definition type_at (L : list doc) (j : nat) : section_type :=
  determine_section_type (meta_at L j) (cont_at L j).

(** An earlier fragment with non-empty text has the same key. *)
Definition duplicate_at (L : list doc) (j : nat) : Prop :=
  exists i, (i < j)%nat /\ cont_at L i <> [] /\ key_at L i = key_at L j.

(** A table or figure that [should_include_content] rejects. *)
Definition noise_at (L : list doc) (j : nat) : Prop :=
  (type_at L j = Table \/ type_at L j = Figure) /\
  should_include_content (type_at L j) (cont_at L j) = false.

Definition has_text (d : doc) : bool := negb (str_eqb (strip (page_content d)) []).

(** ** The invariant of the pass with provenance

    After the fragments at positions [0 .. k-1] of the sorted list [L]:
    the positions used so far are increasing and below [k]; the open
    paragraph carries the metadata of its last fragment and the texts of its
    fragments; every emitted Section is the join of the texts of its
    fragments and, for a paragraph, has the page and title of its last one;
    the seen keys are those of the fragments with text; and a position is
    used exactly when its fragment has text, is not a duplicate and is not
    table/figure noise. *)
Definition sec_ok (L : list doc) (sp : section * list nat) : Prop :=
  snd sp <> [] /\
  content (fst sp) = join [" "%char] (map (cont_at L) (snd sp)) /\
  (type (fst sp) = Paragraph ->
     page (fst sp) = page_of (meta_at L (last (snd sp) 0%nat)) /\
     title (fst sp) =
       clean_section_title (get_title (meta_at L (last (snd sp) 0%nat)) (lit "Paragraph"))).

Record Inv (L : list doc) (k : nat) (st : istate) : Prop := {
  inv_sorted : StronglySorted lt (prov_all st);
  inv_bound : Forall (fun j => j < k)%nat (prov_all st);
  inv_cur : match icurrent st with
            | None => ipos st = []
            | Some m => ipos st <> [] /\ m = meta_at L (last (ipos st) 0%nat)
            end;
  inv_buf : ibuffer st = map (cont_at L) (ipos st);
  inv_secs : Forall (sec_ok L) (isections st);
  inv_seen : forall x, In x (iseen st) <->
               exists i, (i < k)%nat /\ cont_at L i <> [] /\ key_at L i = x;
  inv_class : forall j, (j < k)%nat ->
               (In j (prov_all st) <->
                cont_at L j <> [] /\ ~ duplicate_at L j /\ ~ noise_at L j)
}.

(** The default of [metadata.get('section_title', ...)] where a Section is
    built: "Paragraph" in [create_paragraph_section], "Unknown" for a
    header, table or figure. *)
Definition default_title (ty : section_type) : str :=
  match ty with Paragraph => lit "Paragraph" | _ => lit "Unknown" end.

(** A Section takes its title from the metadata of its last fragment; a
    header, table or figure has exactly one fragment. *)
Definition title_src (L : list doc) (sp : section * list nat) : Prop :=
  (type (fst sp) <> Paragraph -> exists j, snd sp = [j]) /\
  title (fst sp) =
    clean_section_title (get_title (meta_at L (last (snd sp) 0%nat)) (default_title (type (fst sp)))).

(** ** Further concrete inputs and reference readings *)

Definition table_fragment : doc :=
  frag "2" "4" None "Table 3 lists the outcomes of the randomised trial at every site".

Definition ws_frag_A : doc := frag "1" "1" None (spaces50 ++ "A").
Definition ws_frag_B : doc := frag "1" "1" None (spaces50 ++ "B").

(** The purely-tabular test in the spec's words: among the non-blank lines,
    the fraction of lines containing a pipe or starting with a digit is
    above 0.7. *)
Definition spec_purely_tabular (text : str) : bool :=
  let lines := filter non_blank (split_nl text) in
  (7 * length lines <? 10 * count (fun l => has_pipe l || starts_digit1 l) lines)%nat.

(** The spec's reading of a cleaned title: the maximal runs of non-blank
    characters of the hint, joined by single spaces. *)
Fixpoint words_aux (cur : str) (s : str) : list str :=
  match s with
  | [] => match cur with [] => [] | _ => [rev cur] end
  | c :: r =>
      if is_space c then
        match cur with [] => words_aux [] r | _ => rev cur :: words_aux [] r end
      else words_aux (c :: cur) r
  end.

Definition words (s : str) : list str := words_aux [] s.

Fixpoint last_nonspace (s : str) : bool :=
  match s with
  | [] => true
  | [c] => negb (is_space c)
  | _ :: r => last_nonspace r
  end.

Ltac case_include :=
  match goal with
  | |- context [should_include_content ?t ?c] => destruct (should_include_content t c)
  end.

Definition key_le (x y : (Z * Z) * doc) : Prop := key_leb (fst x) (fst y) = true.

(** A fragment whose sort key is [k]. *)
Definition key_is (k : Z * Z) (d : doc) : bool :=
  match sort_key d with
  | Some k' => (fst k' =? fst k)%Z && (snd k' =? snd k)%Z
  | None => false
  end.

(** What every emitted Section looks like: non-empty text without
    surrounding whitespace and with its length in [content_length]; a table or
    figure longer than 50 characters and not purely tabular; a header
    shorter than 200 characters. *)
Definition section_shape (s : section) : Prop :=
  content s <> [] /\ strip (content s) = content s /\
  content_length s = length (content s) /\
  ((type s = Table \/ type s = Figure) ->
     (50 < length (content s))%nat /\ is_purely_tabular (content s) = false) /\
  (type s = Header -> (length (content s) < 200)%nat).

(** Part of the measure of the pass: the emitted Sections and the open one. *)
Definition pending (st : state) : nat :=
  length (sections st) + match current st with Some _ => 1 | None => 0 end.

(** A word of a title: non-empty, without whitespace. *)
Definition good_word (w : str) : Prop := w <> [] /\ Forall (fun c => is_space c = false) w.

(** One step of reading decimal digits. *)
Definition dstep (a : Z) (c : ascii) : Z := (a * 10 + digit_val c)%Z.

(** Equality of sort keys. *)
Definition keq (a k : Z * Z) : bool := (fst a =? fst k)%Z && (snd a =? snd k)%Z.

(** A stripped, non-empty text, as kept in [paragraph_buffer]. *)
Definition clean_part (c : str) : Prop := c <> [] /\ lstrip c = c /\ rstrip c = c.

(** The shape invariant of the pass. *)
Definition pass_shape (st : state) : Prop :=
  Forall section_shape (sections st) /\ Forall clean_part (buffer st) /\
  (current st <> None -> buffer st <> []).

Ltac leb_cases :=
  repeat match goal with |- context [(?a <=? ?b)%nat] => destruct (Nat.leb_spec a b) end;
  simpl; try reflexivity; try lia.

(** ** The output file of [extract_pdf_with_grobid_sequential]

    The loader and the file system are inputs: what [GenericLoader ...
    .load()] returns for [pdf_path] ([None] when building the parser or the
    loader, or loading, raises; [grobid_url] is only printed), and whether
    [open(output_path, 'w')] and the write succeed.  Printing to stdout is
    taken not to fail. *)

Definition rule80 : str := repeat "="%char 80.
Definition nl : str := [newline].

(** [section_header] for Section number [idx] *)
Definition header_block (idx : Z) (s : section) : str :=
  nl ++ rule80 ++ nl ++
  lit "SECTION " ++ str_of_Z idx ++ lit ": " ++ title s ++ nl ++
  rule80 ++ nl ++
  lit "Page: " ++ str_of_Z (page s) ++ nl ++
  rule80 ++ nl ++ nl.

Record fmt_state := mkFmt {
  formatted : str;
  current_title : option str;
  section_index : Z
}.

(** One iteration of the loop over [sequential_sections]. *)
Definition format_step (fs : fmt_state) (s : section) : fmt_state :=
  let is_new := match current_title fs with
                | Some t => negb (str_eqb (title s) t)
                | None => true
                end in
  if is_new then
    let idx := (section_index fs + 1)%Z in
    mkFmt (formatted fs ++ header_block idx s ++ (content s ++ nl ++ nl)) (Some (title s)) idx
  else mkFmt (formatted fs ++ (content s ++ nl ++ nl)) (current_title fs) (section_index fs).

Definition format_sections (secs : list section) : fmt_state :=
  fold_left format_step secs (mkFmt [] None 0%Z).

Record env := mkEnv {
  load : str -> option (list doc);
  can_write : str -> bool
}.

(** The text written to [output_path]; [None] when no text is written: the
    loader raised, no documents were loaded, or [process_sequential_sections],
    the [open] or the write raised (the exception is caught and printed). *)
Definition extract_pdf_with_grobid_sequential (e : env) (pdf_path output_path : str) : option str :=
  match load e pdf_path with
  | None => None
  | Some [] => None
  | Some docs =>
      match process_sequential_sections docs with
      | None => None
      | Some secs =>
          let formatted_content := formatted (format_sections secs) in
          if can_write e output_path then Some formatted_content else None
      end
  end.

(** The expected file for Sections given as maximal runs of equal titles:
    per run, one header numbered [i], then each text and a blank line. *)
Fixpoint render_runs (i : Z) (runs : list (list section)) : str :=
  match runs with
  | [] => []
  | g :: rs =>
      match g with [] => [] | s :: _ => header_block i s end ++
      concat (map (fun x => content x ++ nl ++ nl) g) ++ render_runs (i + 1) rs
  end.

(** The runs are non-empty, each has one title, and consecutive runs have
    different titles. *)
Fixpoint runs_okb (prev : option str) (runs : list (list section)) : bool :=
  match runs with
  | [] => true
  | [] :: _ => false
  | (s :: g) :: rs =>
      match prev with Some t => negb (str_eqb (title s) t) | None => true end &&
      forallb (fun x => str_eqb (title x) (title s)) g &&
      runs_okb (Some (title s)) rs
  end.

Definition fmt_sec (t c : string) (p : Z) : section :=
  mkSection (lit t) (lit c) p (lit "1") (length (lit c)) Paragraph.

Definition sample_runs : list (list section) :=
  [[fmt_sec "Introduction" "Surgery is common." 1; fmt_sec "Introduction" "Risks vary." 2];
   [fmt_sec "Methods" "We searched." 2]].

(** * Properties *)

(** ** Raising on a malformed paragraph number *)

Lemma keyed_none : forall docs d,
  In d docs -> para_index (metadata d) = None -> keyed docs = None.
Proof.
  induction docs as [|x r IH]; intros d Hin Hp; [contradiction|].
  simpl. destruct Hin as [<-|Hin].
  - unfold sort_key. rewrite Hp. reflexivity.
  - destruct (sort_key x); [|reflexivity].
    rewrite (IH d Hin Hp). reflexivity.
Qed.

(** C1 (code_bug): whenever some fragment's [para] field does not parse as
    an integer, [process_sequential_sections] raises (the sort key calls
    [int] unguarded), while the spec says such a value is treated as 0. *)
Theorem C1_malformed_para_raises : forall docs d,
  In d docs -> para_index (metadata d) = None ->
  process_sequential_sections docs = None.
Proof.
  intros docs d Hin Hp. unfold process_sequential_sections, sorted_docs.
  rewrite (keyed_none docs d Hin Hp). reflexivity.
Qed.

Lemma C1_malformed_para_raises_witness :
  para_index (metadata (frag "1" "abc" None "hello")) = None /\
  process_sequential_sections [frag "1" "abc" None "hello"] = None.
Proof.
  split; [reflexivity|].
  apply (C1_malformed_para_raises _ (frag "1" "abc" None "hello")).
  - left. reflexivity.
  - reflexivity.
Defined.

(** ** The continuation test *)

(** C4: with integer paragraph numbers on both sides, the test holds exactly
    when the page is the same and the number is the previous one plus one,
    or the page is the next one and the number is 1; with no open paragraph
    it is false.  On (page 3, para 5, "A") then (page 4, para 1, "B") the
    reconstruction emits one Section with content "A B". *)
Theorem C4_continuation_test : forall cm pm ca pa,
  para_index cm = Some ca -> para_index pm = Some pa ->
  (should_continue_paragraph cm (Some pm) = Some true <->
     (page_of cm = page_of pm /\ ca = pa + 1) \/
     (page_of cm = page_of pm + 1 /\ ca = 1))%Z /\
  should_continue_paragraph cm None = Some false /\
  option_map (map content)
    (process_sequential_sections [frag "3" "5" None "A"; frag "4" "1" None "B"])
  = Some [lit "A B"].
Proof.
  intros cm pm ca pa Hc Hp. split; [|split; [reflexivity | vm_compute; reflexivity]].
  simpl. rewrite Hc, Hp. split.
  - intros H. injection H as H.
    apply orb_true_iff in H as [H|H]; apply andb_true_iff in H as [H1 H2];
      apply Z.eqb_eq in H1; apply Z.eqb_eq in H2; auto.
  - intros [[H1 H2]|[H1 H2]]; f_equal; apply orb_true_iff;
      [left|right]; apply andb_true_iff; split; apply Z.eqb_eq; assumption.
Qed.

Lemma C4_continuation_test_witness :
  para_index (metadata (frag "4" "1" None "B")) = Some 1%Z /\
  para_index (metadata (frag "3" "5" None "A")) = Some 5%Z /\
  should_continue_paragraph (metadata (frag "4" "1" None "B"))
    (Some (metadata (frag "3" "5" None "A"))) = Some true.
Proof.
  split; [reflexivity|]. split; [reflexivity|].
  apply (proj2 (proj1 (C4_continuation_test (metadata (frag "4" "1" None "B"))
                         (metadata (frag "3" "5" None "A")) 1 5
                         eq_refl eq_refl))).
  right. split; reflexivity.
Defined.

(** ** [strip] *)

Lemma lstrip_idem : forall s, lstrip (lstrip s) = lstrip s.
Proof.
  induction s as [|c r IH]; simpl; [reflexivity|].
  destruct (is_space c) eqn:E; [exact IH|]. simpl. rewrite E. reflexivity.
Qed.

Lemma lstrip_app_nonspace : forall x c,
  is_space c = false -> lstrip (x ++ [c]) = lstrip x ++ [c].
Proof.
  induction x as [|y x IH]; intros c Hc; simpl.
  - rewrite Hc. reflexivity.
  - destruct (is_space y); [apply IH; exact Hc | reflexivity].
Qed.

Lemma lstrip_head : forall s,
  lstrip s = [] \/ exists c r, lstrip s = c :: r /\ is_space c = false.
Proof.
  induction s as [|c r IH]; simpl; [left; reflexivity|].
  destruct (is_space c) eqn:E; [exact IH|]. right. exists c, r. auto.
Qed.

Lemma lstrip_strip : forall s, lstrip (strip s) = strip s.
Proof.
  intros s. unfold strip, rstrip.
  destruct (lstrip_head s) as [H|[c [r [H Hc]]]]; rewrite H; [reflexivity|].
  simpl. rewrite lstrip_app_nonspace by exact Hc. rewrite rev_app_distr. simpl.
  rewrite Hc. reflexivity.
Qed.

Lemma strip_idem : forall s, strip (strip s) = strip s.
Proof.
  intros s. unfold strip at 1. rewrite lstrip_strip.
  unfold rstrip at 1. unfold strip, rstrip.
  rewrite rev_involutive, lstrip_idem. reflexivity.
Qed.

(** ** Non-paragraph fragments *)

(** C6: a processed fragment (non-empty stripped text, key not seen before)
    that classifies as header, table or figure first flushes the open
    paragraph; a header is then always emitted as its own Section, a table
    or figure only when its stripped text has more than 50 characters and is
    not purely tabular, otherwise nothing is emitted for it. *)
Theorem C6_non_paragraph_fragment : forall st d ty,
  strip (page_content d) <> [] ->
  mem (section_id (metadata d) (strip (page_content d))) (seen st) = false ->
  determine_section_type (metadata d) (strip (page_content d)) = ty ->
  ty <> Paragraph ->
  step st d =
  Some (mkState
     (sections st ++ flush st ++
        match ty with
        | Header => [make_section (metadata d) (strip (page_content d)) Header]
        | _ => if (50 <? length (strip (page_content d)))%nat
                  && negb (is_purely_tabular (strip (page_content d)))
               then [make_section (metadata d) (strip (page_content d)) ty] else []
        end)
     None [] (section_id (metadata d) (strip (page_content d)) :: seen st)).
Proof.
  intros st d ty Hne Hseen Hty Hpar. unfold step.
  destruct (str_eqb (strip (page_content d)) []) eqn:E.
  { unfold str_eqb in E. destruct (list_eq_dec ascii_dec _ _); [contradiction|discriminate]. }
  rewrite Hseen, Hty.
  destruct ty; [| contradiction | |]; simpl; rewrite ?strip_idem, ?app_assoc;
    try reflexivity;
    destruct (_ && _); rewrite ?app_nil_r, ?app_assoc; reflexivity.
Qed.

Lemma C6_non_paragraph_fragment_witness :
  determine_section_type (metadata table_fragment) (strip (page_content table_fragment)) = Table /\
  option_map (fun st => map content (sections st)) (step init_state table_fragment)
  = Some [strip (page_content table_fragment)].
Proof.
  split; [vm_compute; reflexivity|].
  rewrite (C6_non_paragraph_fragment init_state table_fragment Table).
  - vm_compute. reflexivity.
  - vm_compute. discriminate.
  - vm_compute. reflexivity.
  - vm_compute. reflexivity.
  - discriminate.
Defined.

(** ** Key collisions between distinct fragments *)

(** C10: two fragments on the same page with integer paragraph numbers 1 and
    12 and different texts get the same key ["0_1_2_x"]: the raw [para]
    string ["1_2"] (read by [int] as 12) and the text prefix are joined with
    underscores.  The second one is dropped: the output is that of the first
    fragment alone. *)
Theorem C10_key_collision : exists d1 d2,
  page_of (metadata d1) = page_of (metadata d2) /\
  para_index (metadata d1) = Some 1%Z /\ para_index (metadata d2) = Some 12%Z /\
  page_content d1 <> page_content d2 /\
  strip (page_content d2) <> [] /\
  section_id (metadata d1) (strip (page_content d1))
  = section_id (metadata d2) (strip (page_content d2)) /\
  process_sequential_sections [d1; d2] = process_sequential_sections [d1] /\
  process_sequential_sections [d1] <> Some [].
Proof.
  exists (frag "0" "1" None "2_x"), (frag "0" "1_2" None "x").
  repeat split; vm_compute; congruence.
Qed.

(** ** Counterexamples at concrete inputs *)

(** C2 (counterexample): a fragment without a [section_title] key that
    classifies as paragraph gets the title "Paragraph", the default passed by
    [create_paragraph_section], not "Unknown Section". *)
Lemma C2_no_hint_title_is_Paragraph :
  option_map (map title) (process_sequential_sections [frag "1" "1" None "hello"])
  = Some [lit "Paragraph"] /\ lit "Paragraph" <> lit "Unknown Section".
Proof. split; vm_compute; [reflexivity | congruence]. Qed.

(** C3 (counterexample): two merged fragments (page 3 under "Methods", then
    page 4 paragraph 1 under "Results") yield one Section whose page is 4 and
    whose title is "Results": those of the last fragment, not the first. *)
Lemma C3_merged_section_takes_last_fragment :
  option_map (map (fun s => (content s, page s, title s)))
    (process_sequential_sections
       [frag "3" "5" (Some (TStr (lit "Methods"))) "first part";
        frag "4" "1" (Some (TStr (lit "Results"))) "second part"])
  = Some [(lit "first part second part", 4%Z, lit "Results")].
Proof. vm_compute. reflexivity. Qed.

(** C5 (counterexample): two fragments with the same page, the same
    paragraph number and the same first 50 characters of text (50 spaces)
    are both kept: the key is built from the stripped text, "A" and "B". *)
Lemma C5_same_raw_prefix_kept :
  page_of (metadata ws_frag_A) = page_of (metadata ws_frag_B) /\
  get_para (metadata ws_frag_A) = get_para (metadata ws_frag_B) /\
  firstn 50 (page_content ws_frag_A) = firstn 50 (page_content ws_frag_B) /\
  option_map (map content) (process_sequential_sections [ws_frag_A; ws_frag_B])
  = Some [lit "A"; lit "B"].
Proof. repeat split; vm_compute; reflexivity. Qed.

(** C7 (counterexample): a text with no non-blank line is purely tabular for
    the code (explicit [total_lines == 0] guard), though no fraction of its
    lines exceeds 0.7. *)
Lemma C7_empty_text_is_tabular :
  is_purely_tabular [] = true /\ spec_purely_tabular [] = false.
Proof. split; reflexivity. Qed.

(** ** Title cleaning *)

Lemma last_nonspace_cons : forall c r, r <> [] -> last_nonspace (c :: r) = last_nonspace r.
Proof. intros c [|x r] H; [contradiction | reflexivity]. Qed.

Lemma last_nonspace_snoc : forall u c, last_nonspace (u ++ [c]) = negb (is_space c).
Proof.
  induction u as [|y u IH]; intros c; [reflexivity|].
  simpl app. rewrite last_nonspace_cons by (destruct u; discriminate). apply IH.
Qed.

Lemma last_nonspace_rstrip : forall s, last_nonspace (rstrip s) = true.
Proof.
  intros s. unfold rstrip.
  destruct (lstrip_head (rev s)) as [H|[c [r [H Hc]]]]; rewrite H; [reflexivity|].
  simpl. rewrite last_nonspace_snoc, Hc. reflexivity.
Qed.

Lemma words_aux_nonempty : forall r cur,
  cur <> [] \/ (r <> [] /\ last_nonspace r = true) -> words_aux cur r <> [].
Proof.
  induction r as [|c r IH]; intros cur H; simpl.
  - destruct H as [H|[H _]]; [destruct cur; [contradiction|discriminate] | contradiction].
  - destruct (is_space c) eqn:E.
    + destruct cur as [|x cur]; [|discriminate].
      apply IH. right. destruct H as [H|[_ H]]; [contradiction|].
      destruct r as [|y r]; [simpl in H; rewrite E in H; discriminate|].
      split; [discriminate | exact H].
    + apply IH. left. discriminate.
Qed.

Lemma sub_ws_words : forall s, last_nonspace s = true ->
  (forall cur, cur <> [] -> rev cur ++ sub_ws false s = join [" "%char] (words_aux cur s)) /\
  sub_ws true s = join [" "%char] (words_aux [] s).
Proof.
  induction s as [|c r IH]; intros Hl.
  - split; [|reflexivity]. intros cur Hc. destruct cur; [contradiction|].
    simpl. rewrite app_nil_r. reflexivity.
  - assert (Hr : last_nonspace r = true).
    { destruct r as [|x r]; [reflexivity|]. rewrite last_nonspace_cons in Hl by discriminate.
      exact Hl. }
    destruct (IH Hr) as [IH1 IH2]. simpl. destruct (is_space c) eqn:E.
    + assert (Hrne : r <> []).
      { intros ->. simpl in Hl. rewrite E in Hl. discriminate. }
      assert (HW : words_aux [] r <> []) by (apply words_aux_nonempty; right; auto).
      split; [|exact IH2].
      intros cur Hc. destruct cur as [|x cur]; [contradiction|].
      destruct (words_aux [] r) as [|w ws] eqn:EW; [contradiction|].
      change (rev (x :: cur) ++ [" "%char] ++ sub_ws true r =
              join [" "%char] (rev (x :: cur) :: w :: ws)).
      rewrite IH2. reflexivity.
    + split.
      * intros cur Hc. rewrite <- (IH1 (c :: cur)) by discriminate.
        simpl. rewrite <- app_assoc. reflexivity.
      * rewrite <- (IH1 [c]) by discriminate. reflexivity.
Qed.

Lemma words_lstrip : forall s, words (lstrip s) = words s.
Proof.
  unfold words. induction s as [|c r IH]; [reflexivity|].
  simpl. destruct (is_space c) eqn:E; [exact IH|]. simpl. rewrite E. reflexivity.
Qed.

Lemma words_aux_app_spaces : forall u sp cur,
  Forall (fun c => is_space c = true) sp -> words_aux cur (u ++ sp) = words_aux cur u.
Proof.
  induction u as [|y u IH]; intros sp cur Hsp; simpl.
  - revert cur. induction Hsp as [|c sp Hc Hsp IHsp]; intros cur; [reflexivity|].
    simpl. rewrite Hc. destruct cur; rewrite IHsp; reflexivity.
  - destruct (is_space y); [destruct cur|]; rewrite ?IH by exact Hsp; reflexivity.
Qed.

Lemma lstrip_split : forall x, exists sp,
  Forall (fun c => is_space c = true) sp /\ x = sp ++ lstrip x.
Proof.
  induction x as [|c r IH]; [exists []; auto|].
  simpl. destruct (is_space c) eqn:E.
  - destruct IH as [sp [Hsp He]]. exists (c :: sp). split; [constructor; auto|].
    simpl. f_equal. exact He.
  - exists []. auto.
Qed.

Lemma words_rstrip : forall s, words (rstrip s) = words s.
Proof.
  intros s. destruct (lstrip_split (rev s)) as [sp [Hsp He]].
  assert (Hs : s = rstrip s ++ rev sp).
  { unfold rstrip. rewrite <- rev_app_distr, <- He, rev_involutive. reflexivity. }
  unfold words. rewrite Hs at 2. rewrite words_aux_app_spaces; [reflexivity|].
  apply Forall_rev. exact Hsp.
Qed.

Lemma collapse_strip_words : forall s,
  sub_ws false (strip s) = join [" "%char] (words s).
Proof.
  intros s.
  assert (Hw : words s = words (strip s)).
  { unfold strip. rewrite words_rstrip, words_lstrip. reflexivity. }
  rewrite Hw. pose proof (lstrip_strip s) as Hl.
  assert (Hn : last_nonspace (strip s) = true) by apply last_nonspace_rstrip.
  destruct (lstrip_head (strip s)) as [H|[c [r [H Hc]]]]; rewrite Hl in H;
    rewrite H in *; [reflexivity|].
  simpl. rewrite Hc. unfold words. simpl. rewrite Hc.
  assert (Hr : last_nonspace r = true).
  { destruct r as [|x r]; [reflexivity|]. rewrite last_nonspace_cons in Hn by discriminate.
    exact Hn. }
  rewrite <- (proj1 (sub_ws_words r Hr) [c]) by discriminate. reflexivity.
Qed.

(** ** The purely-tabular test *)

Lemma blank_all_spaces : forall l,
  non_blank l = false -> Forall (fun c => is_space c = true) l.
Proof.
  intros l H. unfold non_blank, str_eqb in H.
  destruct (list_eq_dec ascii_dec (strip l) []) as [E|E]; [|discriminate].
  destruct (lstrip_split l) as [sp1 [H1 E1]].
  destruct (lstrip_split (rev (lstrip l))) as [sp2 [H2 E2]].
  unfold strip, rstrip in E. apply (f_equal (@rev ascii)) in E.
  rewrite rev_involutive in E. simpl in E. rewrite E, app_nil_r in E2.
  rewrite E1, <- (rev_involutive (lstrip l)), E2.
  apply Forall_app. split; [exact H1|]. apply Forall_rev. exact H2.
Qed.

Lemma has_pipe_non_blank : forall l, has_pipe l = true -> non_blank l = true.
Proof.
  intros l H. destruct (non_blank l) eqn:E; [reflexivity|].
  apply blank_all_spaces in E. unfold has_pipe in H.
  apply existsb_exists in H as [c [Hin Hc]].
  rewrite Forall_forall in E. specialize (E c Hin).
  destruct (ascii_dec c pipe); [subst; discriminate | discriminate].
Qed.

Lemma starts_with_number_non_blank : forall l,
  starts_with_number l = true -> non_blank l = true.
Proof.
  intros l H. destruct (non_blank l) eqn:E; [reflexivity|].
  apply blank_all_spaces in E. unfold starts_with_number in H.
  destruct (lstrip_head l) as [H0|[c [r [H0 Hc]]]]; rewrite H0 in H; [discriminate|].
  destruct (lstrip_split l) as [sp [_ Hl]]. rewrite H0 in Hl.
  rewrite Hl in E. apply Forall_app in E as [_ E]. inversion E. congruence.
Qed.

Lemma count_filter_implied : forall (p q : str -> bool) lines,
  (forall l, p l = true -> q l = true) -> count p (filter q lines) = count p lines.
Proof.
  intros p q lines Hpq. unfold count. induction lines as [|l ls IH]; [reflexivity|].
  simpl. destruct (q l) eqn:Eq; simpl; destruct (p l) eqn:Ep; simpl; rewrite ?IH; try reflexivity.
  rewrite (Hpq l Ep) in Eq. discriminate.
Qed.

Lemma count_or_and : forall (p q : str -> bool) lines,
  (count p lines + count q lines =
   count (fun l => p l || q l) lines + count (fun l => p l && q l) lines)%nat.
Proof.
  intros p q lines. unfold count. induction lines as [|l ls IH]; [reflexivity|].
  simpl. destruct (p l), (q l); simpl; lia.
Qed.

(** C7 (amended): writing the lines of the text that are non-blank, and
    among them those containing a pipe or starting, after optional
    whitespace, with a digit: the test is true when there is no non-blank
    line or when the second count exceeds 0.7 of the first; when no line
    both contains a pipe and starts with a digit, it is true only then. *)
Theorem C7_purely_tabular : forall text,
  let lines := filter non_blank (split_nl text) in
  let tabular := count (fun l => has_pipe l || starts_with_number l) lines in
  ((length lines = 0 \/ 7 * length lines < 10 * tabular)%nat ->
     is_purely_tabular text = true) /\
  (count (fun l => has_pipe l && starts_with_number l) lines = 0%nat ->
     is_purely_tabular text = true ->
     (length lines = 0 \/ 7 * length lines < 10 * tabular)%nat).
Proof.
  intros text lines tabular.
  assert (Hsum : (count has_pipe (split_nl text) + count starts_with_number (split_nl text)
                  = tabular + count (fun l => has_pipe l && starts_with_number l) lines)%nat).
  { unfold tabular, lines.
    rewrite <- (count_filter_implied has_pipe non_blank) by exact has_pipe_non_blank.
    rewrite <- (count_filter_implied starts_with_number non_blank)
      by exact starts_with_number_non_blank.
    apply count_or_and. }
  assert (Hlen : count non_blank (split_nl text) = length lines) by reflexivity.
  unfold is_purely_tabular. rewrite Hlen, Hsum.
  split.
  - intros [H|H]; [rewrite H; reflexivity|].
    destruct (length lines =? 0)%nat; [reflexivity|]. apply Nat.ltb_lt. lia.
  - intros H0 H. rewrite H0 in H. destruct (length lines =? 0)%nat eqn:E.
    + left. apply Nat.eqb_eq. exact E.
    + right. apply Nat.ltb_lt in H. lia.
Qed.

Lemma C7_purely_tabular_witness :
  let text := lit "| dose | route |
12 mg" in
  let lines := filter non_blank (split_nl text) in
  is_purely_tabular text = true /\
  (length lines = 0 \/
   7 * length lines < 10 * count (fun l => has_pipe l || starts_with_number l) lines)%nat.
Proof.
  intros text lines.
  assert (H : is_purely_tabular text = true).
  { apply (proj1 (C7_purely_tabular text)). right. vm_compute. lia. }
  split; [exact H|].
  apply (proj2 (C7_purely_tabular text)); [vm_compute; reflexivity | exact H].
Defined.

(** ** Erasing provenance *)

Lemma iflush_erase : forall st, map fst (iflush st) = flush (erase st).
Proof. intros st. unfold iflush, flush, erase. simpl. destruct (icurrent st); reflexivity. Qed.

Lemma istep_erase : forall st jd,
  option_map erase (istep st jd) = step (erase st) (snd jd).
Proof.
  intros st [j d]. unfold istep, step. simpl fst; simpl snd.
  destruct (str_eqb (strip (page_content d)) []); [reflexivity|].
  change (seen (erase st)) with (iseen st).
  destruct (mem _ (iseen st)); [reflexivity|].
  change (current (erase st)) with (icurrent st).
  destruct (determine_section_type _ _) eqn:Ety;
    [| destruct (should_continue_paragraph _ _) as [[|]|]; [reflexivity| |reflexivity] | |];
    try case_include; simpl; rewrite <- iflush_erase; unfold erase; simpl;
    rewrite ?map_app; reflexivity.
Qed.

Lemma irun_erase : forall l st,
  option_map erase (irun st l) = run (erase st) (map snd l).
Proof.
  induction l as [|jd r IH]; intros st; [reflexivity|].
  simpl. rewrite <- istep_erase. destruct (istep st jd) as [st'|]; [apply IH | reflexivity].
Qed.

Lemma ifinish_erase : forall st, map fst (ifinish st) = finish (erase st).
Proof. intros st. unfold ifinish, finish. rewrite map_app, iflush_erase. reflexivity. Qed.

Lemma map_snd_combine_seq : forall (L : list doc) k, map snd (combine (seq k (length L)) L) = L.
Proof. induction L as [|d L IH]; intros k; [reflexivity|]. simpl. f_equal. apply IH. Qed.

(** ** Sorting *)

Lemma key_leb_total : forall a b, key_leb a b = false -> key_leb b a = true.
Proof.
  intros [a1 a2] [b1 b2]. unfold key_leb. simpl. intros H.
  apply orb_false_iff in H as [H1 H2]. apply Z.ltb_ge in H1.
  apply orb_true_iff. destruct (Z.eq_dec a1 b1) as [<-|Hne].
  - right. rewrite Z.eqb_refl in H2 |- *. simpl in H2 |- *.
    apply Z.leb_gt in H2. apply Z.leb_le. lia.
  - left. apply Z.ltb_lt. lia.
Qed.

Lemma key_leb_trans : forall a b c, key_leb a b = true -> key_leb b c = true -> key_leb a c = true.
Proof.
  intros [a1 a2] [b1 b2] [c1 c2]. unfold key_leb. simpl.
  rewrite !orb_true_iff, !andb_true_iff, !Z.ltb_lt, !Z.eqb_eq, !Z.leb_le. lia.
Qed.

Lemma insert_perm : forall x l, Permutation (insert x l) (x :: l).
Proof.
  intros x l. induction l as [|y r IH]; [reflexivity|].
  simpl. destruct (key_leb (fst x) (fst y)); [reflexivity|].
  rewrite IH. apply perm_swap.
Qed.

Lemma isort_perm : forall l, Permutation (isort l) l.
Proof.
  induction l as [|x r IH]; [reflexivity|]. simpl.
  rewrite insert_perm. apply perm_skip. exact IH.
Qed.

Lemma insert_sorted : forall x l, Sorted key_le l -> Sorted key_le (insert x l).
Proof.
  intros x l H. induction H as [|y r Hs IH Hhd]; simpl.
  - constructor; constructor.
  - destruct (key_leb (fst x) (fst y)) eqn:E.
    + constructor; [constructor; assumption | constructor; exact E].
    + constructor; [exact IH|].
      destruct r as [|z r]; simpl.
      * constructor. apply key_leb_total. exact E.
      * inversion Hhd; subst. destruct (key_leb (fst x) (fst z));
          constructor; [apply key_leb_total; exact E | assumption].
Qed.

Lemma isort_sorted : forall l, Sorted key_le (isort l).
Proof. induction l as [|x r IH]; simpl; [constructor | apply insert_sorted; exact IH]. Qed.

Lemma keyed_spec : forall docs kd, keyed docs = Some kd ->
  map snd kd = docs /\ Forall (fun x => sort_key (snd x) = Some (fst x)) kd.
Proof.
  induction docs as [|d r IH]; intros kd H; simpl in H.
  - injection H as <-. split; constructor.
  - destruct (sort_key d) as [k|] eqn:Ek; [|discriminate].
    destruct (keyed r) as [kr|]; [|discriminate]. injection H as <-.
    destruct (IH kr eq_refl) as [H1 H2]. split; [simpl; f_equal; exact H1|].
    constructor; [exact Ek | exact H2].
Qed.

Lemma strongly_sorted_nth : forall {A} (R : A -> A -> Prop) (l : list A) dflt i j,
  StronglySorted R l -> (i < j)%nat -> (j < length l)%nat ->
  R (nth i l dflt) (nth j l dflt).
Proof.
  intros A R l dflt. induction l as [|x r IH]; intros i j H Hij Hj; [simpl in Hj; lia|].
  apply StronglySorted_inv in H as [Hs Hall]. destruct i as [|i]; destruct j as [|j]; try lia.
  - simpl. rewrite Forall_forall in Hall. apply Hall. apply nth_In. simpl in Hj; lia.
  - simpl. apply IH; [exact Hs | lia | simpl in Hj; lia].
Qed.

(** The sorted list is a permutation of the input, and the keys of its
    fragments are in order. *)
Lemma sorted_docs_spec : forall docs L, sorted_docs docs = Some L ->
  Permutation L docs /\
  Forall (fun d => exists k, sort_key d = Some k) L /\
  (forall i j, (i < j)%nat -> (j < length L)%nat ->
     exists ki kj, sort_key (doc_at L i) = Some ki /\ sort_key (doc_at L j) = Some kj /\
                   key_leb ki kj = true).
Proof.
  intros docs L H. unfold sorted_docs in H.
  destruct (keyed docs) as [kd|] eqn:Ek; [|discriminate]. injection H as <-.
  destruct (keyed_spec docs kd Ek) as [Hm Hk].
  assert (Hks : Forall (fun x => sort_key (snd x) = Some (fst x)) (isort kd)).
  { rewrite Forall_forall in *. intros x Hx. apply Hk.
    apply (Permutation_in _ (isort_perm kd)). exact Hx. }
  split; [|split].
  - rewrite <- Hm. apply Permutation_map. apply isort_perm.
  - rewrite Forall_forall in *. intros d Hd. apply in_map_iff in Hd as [x [<- Hx]].
    exists (fst x). apply Hks. exact Hx.
  - intros i j Hij Hj. rewrite length_map in Hj.
    set (dflt := ((0, 0)%Z, mkDoc no_meta [])).
    assert (Hi : (i < length (isort kd))%nat) by lia.
    exists (fst (nth i (isort kd) dflt)), (fst (nth j (isort kd) dflt)).
    unfold doc_at. change (mkDoc no_meta []) with (snd dflt). rewrite !map_nth.
    rewrite Forall_forall in Hks.
    split; [apply Hks; apply nth_In; exact Hi|].
    split; [apply Hks; apply nth_In; exact Hj|].
    apply (strongly_sorted_nth key_le); [| exact Hij | exact Hj].
    apply Sorted_StronglySorted; [|apply isort_sorted].
    intros x y z. unfold key_le. apply key_leb_trans.
Qed.

(** ** Preservation of the invariant *)

Lemma strongly_sorted_snoc : forall l k,
  StronglySorted lt l -> Forall (fun j => j < k)%nat l -> StronglySorted lt (l ++ [k]).
Proof.
  induction l as [|x r IH]; intros k Hs Hb; simpl.
  - constructor; constructor.
  - apply StronglySorted_inv in Hs as [Hs Hx]. inversion Hb; subst.
    constructor; [apply IH; assumption|].
    apply Forall_app. split; [exact Hx | constructor; [assumption | constructor]].
Qed.

Lemma str_eqb_false : forall s t, str_eqb s t = false -> s <> t.
Proof. intros s t. unfold str_eqb. destruct (list_eq_dec ascii_dec s t); congruence. Qed.

Lemma str_eqb_true : forall s t, str_eqb s t = true -> s = t.
Proof. intros s t. unfold str_eqb. destruct (list_eq_dec ascii_dec s t); congruence. Qed.

Lemma mem_In : forall k l, mem k l = true <-> In k l.
Proof.
  intros k l. unfold mem. rewrite existsb_exists. split.
  - intros [x [Hx He]]. apply str_eqb_true in He. subst. exact Hx.
  - intros H. exists k. split; [exact H|]. unfold str_eqb.
    destruct (list_eq_dec ascii_dec k k); [reflexivity | contradiction].
Qed.

Lemma inv_skip : forall L k st,
  Inv L k st -> (cont_at L k = [] \/ In (key_at L k) (iseen st)) -> Inv L (S k) st.
Proof.
  intros L k st [Hs Hb Hc Hbuf Hsec Hseen Hcl] Hk. constructor; auto.
  - eapply Forall_impl; [|exact Hb]. simpl. intros j Hj. lia.
  - intros x. rewrite Hseen. split.
    + intros [i [Hi Hr]]. exists i. split; [lia | exact Hr].
    + intros [i [Hi [Hne He]]]. destruct (Nat.eq_dec i k) as [->|Hik].
      * destruct Hk as [Hk|Hk]; [contradiction|]. apply Hseen. subst x. exact Hk.
      * exists i. split; [lia | auto].
  - intros j Hj. destruct (Nat.eq_dec j k) as [->|Hjk]; [|apply Hcl; lia].
    split.
    + intros Hin. rewrite Forall_forall in Hb. specialize (Hb k Hin). lia.
    + intros [Hne [Hnd _]]. destruct Hk as [Hk|Hk]; [contradiction|].
      apply Hseen in Hk as [i [Hi [Hi2 He]]]. exfalso. apply Hnd. exists i. auto.
Qed.

Lemma inv_add : forall L k st st' (b : bool),
  Inv L k st -> cont_at L k <> [] -> ~ In (key_at L k) (iseen st) ->
  prov_all st' = prov_all st ++ (if b then [k] else []) ->
  iseen st' = key_at L k :: iseen st ->
  (b = true <-> ~ noise_at L k) ->
  match icurrent st' with
  | None => ipos st' = []
  | Some m => ipos st' <> [] /\ m = meta_at L (last (ipos st') 0%nat)
  end ->
  ibuffer st' = map (cont_at L) (ipos st') ->
  Forall (sec_ok L) (isections st') ->
  Inv L (S k) st'.
Proof.
  intros L k st st' b [Hs Hb Hc Hbuf Hsec Hseen Hcl] Hne Hnin Hp Hse Hnoise Hc' Hbuf' Hsec'.
  assert (Hk : ~ In k (prov_all st)).
  { intros Hin. rewrite Forall_forall in Hb. specialize (Hb k Hin). lia. }
  constructor; auto.
  - rewrite Hp. destruct b; [apply strongly_sorted_snoc; assumption | rewrite app_nil_r; exact Hs].
  - rewrite Hp. apply Forall_app. split.
    + eapply Forall_impl; [|exact Hb]. simpl. intros j Hj. lia.
    + destruct b; repeat constructor.
  - intros x. rewrite Hse. simpl. rewrite Hseen. split.
    + intros [<-|[i [Hi Hr]]]; [exists k; auto|]. exists i. split; [lia | exact Hr].
    + intros [i [Hi [Hi2 He]]]. destruct (Nat.eq_dec i k) as [->|Hik]; [left; exact He|].
      right. exists i. split; [lia | auto].
  - intros j Hj. rewrite Hp, in_app_iff.
    destruct (Nat.eq_dec j k) as [->|Hjk].
    + split.
      * intros [Hin|Hin]; [contradiction|].
        destruct b; [|contradiction]. split; [exact Hne|].
        split; [|apply Hnoise; reflexivity].
        intros [i [Hi [Hi2 He]]]. apply Hnin. apply Hseen. exists i. auto.
      * intros [_ [_ Hn]]. right. destruct b; [left; reflexivity|].
        apply Hnoise in Hn. discriminate.
    + rewrite <- (Hcl j) by lia. split; [|left; assumption].
      intros [Hin|Hin]; [exact Hin|]. destruct b; [destruct Hin as [->|[]]; contradiction|contradiction].
Qed.

Lemma iflush_prov : forall st,
  match icurrent st with None => ipos st = [] | Some _ => True end ->
  concat (map snd (iflush st)) = ipos st.
Proof.
  intros st H. unfold iflush. destruct (icurrent st); simpl; [apply app_nil_r | symmetry; exact H].
Qed.

Lemma iflush_ok : forall L st,
  match icurrent st with
  | None => ipos st = []
  | Some m => ipos st <> [] /\ m = meta_at L (last (ipos st) 0%nat)
  end ->
  ibuffer st = map (cont_at L) (ipos st) ->
  Forall (sec_ok L) (iflush st).
Proof.
  intros L st Hc Hb. unfold iflush. destruct (icurrent st) as [pm|]; [|constructor].
  destruct Hc as [Hne Hm]. constructor; [|constructor].
  unfold sec_ok. simpl. split; [exact Hne|]. split; [rewrite Hb; reflexivity|].
  intros _. subst pm. split; reflexivity.
Qed.

Lemma prov_all_snoc_flush : forall st extra,
  match icurrent st with None => ipos st = [] | Some _ => True end ->
  concat (map snd (isections st ++ iflush st ++ extra)) = prov_all st ++ concat (map snd extra).
Proof.
  intros st extra H. unfold prov_all. rewrite !map_app, !concat_app, iflush_prov by exact H.
  rewrite app_assoc. reflexivity.
Qed.

Lemma cur_weak : forall L st,
  match icurrent st with
  | None => ipos st = []
  | Some m => ipos st <> [] /\ m = meta_at L (last (ipos st) 0%nat)
  end ->
  match icurrent st with None => ipos st = [] | Some _ => True end.
Proof. intros L st H. destruct (icurrent st); auto. Qed.

Lemma inv_nonpara : forall L k st ty,
  Inv L k st -> cont_at L k <> [] -> ~ In (key_at L k) (iseen st) ->
  type_at L k = ty -> ty <> Paragraph ->
  Inv L (S k)
    (mkIState
       (if should_include_content ty (cont_at L k)
        then (isections st ++ iflush st) ++ [(make_section (meta_at L k) (cont_at L k) ty, [k])]
        else isections st ++ iflush st)
       None [] [] (key_at L k :: iseen st)).
Proof.
  intros L k st ty HI Hne Hnin Hty Hnp.
  pose proof HI as [Hs Hb Hc Hbuf Hsec Hseen Hcl].
  apply (inv_add L k st _ (should_include_content ty (cont_at L k)) HI Hne Hnin).
  - unfold prov_all at 1. simpl. rewrite app_nil_r.
    destruct (should_include_content ty (cont_at L k)).
    + rewrite <- app_assoc. rewrite prov_all_snoc_flush by (eapply cur_weak; exact Hc).
      reflexivity.
    + rewrite <- (app_nil_r (iflush st)).
      rewrite prov_all_snoc_flush by (eapply cur_weak; exact Hc). reflexivity.
  - reflexivity.
  - unfold noise_at. rewrite Hty. destruct ty; [| contradiction | |]; simpl.
    + split; [intros _ [[H|H] _]; discriminate | reflexivity].
    + destruct (_ && _); split.
      * intros _ [_ H']. discriminate.
      * reflexivity.
      * discriminate.
      * intros H. exfalso. apply H. split; [auto | reflexivity].
    + destruct (_ && _); split.
      * intros _ [_ H']. discriminate.
      * reflexivity.
      * discriminate.
      * intros H. exfalso. apply H. split; [auto | reflexivity].
  - reflexivity.
  - reflexivity.
  - simpl. destruct (should_include_content ty (cont_at L k)); rewrite ?Forall_app.
    + split; [split; [exact Hsec | apply iflush_ok; assumption]|].
      constructor; [|constructor]. unfold sec_ok. simpl.
      split; [discriminate|]. split; [reflexivity|]. intros H. contradiction.
    + split; [exact Hsec | apply iflush_ok; assumption].
Qed.

Lemma istep_inv : forall L k st st',
  Inv L k st -> istep st (k, doc_at L k) = Some st' -> Inv L (S k) st'.
Proof.
  intros L k st st' HI H. unfold istep in H. simpl fst in H. simpl snd in H.
  change (strip (page_content (doc_at L k))) with (cont_at L k) in H.
  change (metadata (doc_at L k)) with (meta_at L k) in H.
  change (section_id (meta_at L k) (cont_at L k)) with (key_at L k) in H.
  change (determine_section_type (meta_at L k) (cont_at L k)) with (type_at L k) in H.
  destruct (str_eqb (cont_at L k) []) eqn:E0.
  { injection H as <-. apply inv_skip; [exact HI|]. left. apply str_eqb_true. exact E0. }
  apply str_eqb_false in E0.
  destruct (mem (key_at L k) (iseen st)) eqn:E1.
  { injection H as <-. apply inv_skip; [exact HI|]. right. apply mem_In. exact E1. }
  assert (Hnin : ~ In (key_at L k) (iseen st)) by (rewrite <- mem_In; congruence).
  pose proof HI as [Hs Hb Hc Hbuf Hsec Hseen Hcl].
  destruct (type_at L k) eqn:Ety.
  - injection H as <-. apply (inv_nonpara L k st Header); auto. discriminate.
  - destruct (should_continue_paragraph (meta_at L k) (icurrent st)) as [[|]|];
      [| | discriminate]; injection H as <-.
    + apply (inv_add L k st _ true HI E0 Hnin).
      * unfold prov_all. simpl. rewrite app_assoc. reflexivity.
      * reflexivity.
      * split; [intros _ [[H|H] _]; congruence | reflexivity].
      * simpl. split; [destruct (ipos st); discriminate | rewrite last_last; reflexivity].
      * simpl. rewrite Hbuf, map_app. reflexivity.
      * exact Hsec.
    + apply (inv_add L k st _ true HI E0 Hnin).
      * unfold prov_all at 1. simpl.
        rewrite <- (app_nil_r (iflush st)).
        rewrite prov_all_snoc_flush by (eapply cur_weak; exact Hc).
        simpl. rewrite app_nil_r. reflexivity.
      * reflexivity.
      * split; [intros _ [[H|H] _]; congruence | reflexivity].
      * simpl. split; [discriminate | reflexivity].
      * reflexivity.
      * simpl. apply Forall_app. split; [exact Hsec | apply iflush_ok; assumption].
  - injection H as <-. apply (inv_nonpara L k st Table); auto. discriminate.
  - injection H as <-. apply (inv_nonpara L k st Figure); auto. discriminate.
Qed.

Lemma irun_inv : forall R F L k st st',
  L = F ++ R -> length F = k -> Inv L k st ->
  irun st (combine (seq k (length R)) R) = Some st' -> Inv L (length L) st'.
Proof.
  induction R as [|d R IH]; intros F L k st st' HL Hk HI H.
  - simpl in H. injection H as <-. subst. rewrite app_nil_r in *. exact HI.
  - simpl in H. destruct (istep st (k, d)) as [s1|] eqn:Es; [|discriminate].
    assert (Hd : doc_at L k = d).
    { subst. unfold doc_at. rewrite app_nth2 by lia. rewrite Nat.sub_diag. reflexivity. }
    rewrite <- Hd in Es. apply (istep_inv L k st s1 HI) in Es.
    apply (IH (F ++ [d]) L (S k) s1 st'); auto.
    + subst. rewrite <- app_assoc. reflexivity.
    + rewrite length_app. simpl. lia.
Qed.

Lemma inv_init : forall L, Inv L 0 iinit.
Proof.
  intros L. constructor.
  - constructor.
  - constructor.
  - reflexivity.
  - reflexivity.
  - constructor.
  - intros x. simpl. split; [intros [] | intros [i [Hi _]]; lia].
  - intros j Hj. lia.
Qed.

Lemma ifinish_prov : forall L k st, Inv L k st ->
  concat (map snd (ifinish st)) = prov_all st.
Proof.
  intros L k st HI. unfold ifinish. rewrite <- (app_nil_r (iflush st)).
  rewrite prov_all_snoc_flush by (eapply cur_weak; apply (inv_cur _ _ _ HI)).
  simpl. apply app_nil_r.
Qed.

Lemma ifinish_ok : forall L k st, Inv L k st -> Forall (sec_ok L) (ifinish st).
Proof.
  intros L k st HI. unfold ifinish. apply Forall_app.
  split; [apply (inv_secs _ _ _ HI) | apply iflush_ok; [apply (inv_cur _ _ _ HI) | apply (inv_buf _ _ _ HI)]].
Qed.

(** Every successful reconstruction is the erasure of a run of the pass with
    provenance over the sorted list, ending in the invariant. *)
Lemma process_provenance : forall docs secs,
  process_sequential_sections docs = Some secs ->
  exists L st, sorted_docs docs = Some L /\ run init_state L = Some (erase st) /\
    secs = map fst (ifinish st) /\ Inv L (length L) st.
Proof.
  intros docs secs H. unfold process_sequential_sections in H.
  destruct (sorted_docs docs) as [L|] eqn:EL; [|discriminate].
  destruct (run init_state L) as [st0|] eqn:Er; [|discriminate]. injection H as <-.
  pose proof (irun_erase (tagged L) iinit) as He.
  unfold tagged in He. rewrite map_snd_combine_seq in He.
  change (erase iinit) with init_state in He. rewrite Er in He.
  destruct (irun iinit (combine (seq 0 (length L)) L)) as [st|] eqn:Ei; [|discriminate].
  injection He as He. exists L, st. split; [reflexivity|]. split; [rewrite He; exact Er|].
  split; [rewrite ifinish_erase, He; reflexivity|].
  apply (irun_inv L [] L 0 iinit st); auto. apply inv_init.
Qed.

(** ** Where the titles of the Sections come from *)

Lemma iflush_title : forall L st,
  match icurrent st with
  | None => ipos st = []
  | Some m => ipos st <> [] /\ m = meta_at L (last (ipos st) 0%nat)
  end ->
  Forall (title_src L) (iflush st).
Proof.
  intros L st Hc. unfold iflush. destruct (icurrent st) as [pm|]; [|constructor].
  destruct Hc as [_ Hm]. constructor; [|constructor].
  unfold title_src. simpl. split; [intros H; contradiction H; reflexivity|]. subst pm. reflexivity.
Qed.

Lemma istep_title : forall L k st st',
  Inv L k st -> Forall (title_src L) (isections st) ->
  istep st (k, doc_at L k) = Some st' -> Forall (title_src L) (isections st').
Proof.
  intros L k st st' HI Ht H. unfold istep in H. simpl fst in H. simpl snd in H.
  change (strip (page_content (doc_at L k))) with (cont_at L k) in H.
  change (metadata (doc_at L k)) with (meta_at L k) in H.
  change (section_id (meta_at L k) (cont_at L k)) with (key_at L k) in H.
  change (determine_section_type (meta_at L k) (cont_at L k)) with (type_at L k) in H.
  destruct (str_eqb (cont_at L k) []); [injection H as <-; exact Ht|].
  destruct (mem (key_at L k) (iseen st)); [injection H as <-; exact Ht|].
  pose proof (inv_cur _ _ _ HI) as Hc.
  assert (Hnp : forall ty, ty <> Paragraph ->
    Forall (title_src L)
      (if should_include_content ty (cont_at L k)
       then (isections st ++ iflush st) ++ [(make_section (meta_at L k) (cont_at L k) ty, [k])]
       else isections st ++ iflush st)).
  { intros ty Hty. destruct (should_include_content ty (cont_at L k)); rewrite ?Forall_app.
    - split; [split; [exact Ht | apply iflush_title; exact Hc]|].
      constructor; [|constructor]. unfold title_src. simpl.
      split; [intros _; exists k; reflexivity|].
      destruct ty; [| contradiction | |]; reflexivity.
    - split; [exact Ht | apply iflush_title; exact Hc]. }
  destruct (type_at L k).
  - injection H as <-. exact (Hnp Header ltac:(discriminate)).
  - destruct (should_continue_paragraph (meta_at L k) (icurrent st)) as [[|]|];
      [| | discriminate]; injection H as <-; simpl; [exact Ht|].
    apply Forall_app. split; [exact Ht | apply iflush_title; exact Hc].
  - injection H as <-. exact (Hnp Table ltac:(discriminate)).
  - injection H as <-. exact (Hnp Figure ltac:(discriminate)).
Qed.

Lemma irun_title : forall R F L k st st',
  L = F ++ R -> length F = k -> Inv L k st -> Forall (title_src L) (isections st) ->
  irun st (combine (seq k (length R)) R) = Some st' -> Forall (title_src L) (isections st').
Proof.
  induction R as [|d R IH]; intros F L k st st' HL Hk HI Ht H.
  - simpl in H. injection H as <-. exact Ht.
  - simpl in H. destruct (istep st (k, d)) as [s1|] eqn:Es; [|discriminate].
    assert (Hd : doc_at L k = d).
    { subst. unfold doc_at. rewrite app_nth2 by lia. rewrite Nat.sub_diag. reflexivity. }
    rewrite <- Hd in Es.
    apply (IH (F ++ [d]) L (S k) s1 st'); auto.
    + subst. rewrite <- app_assoc. reflexivity.
    + rewrite length_app. simpl. lia.
    + apply (istep_inv L k st s1 HI Es).
    + apply (istep_title L k st s1 HI Ht Es).
Qed.

(** Every successful reconstruction is the erasure of the pass with
    provenance over the sorted list; that run ends in the invariant, and
    every Section it emits, with its fragments, has the shape [sec_ok] and
    the title source [title_src]. *)
Lemma process_irun : forall docs secs,
  process_sequential_sections docs = Some secs ->
  exists L st, sorted_docs docs = Some L /\ irun iinit (tagged L) = Some st /\
    secs = map fst (ifinish st) /\ Inv L (length L) st /\
    Forall (sec_ok L) (ifinish st) /\ Forall (title_src L) (ifinish st).
Proof.
  intros docs secs H. unfold process_sequential_sections in H.
  destruct (sorted_docs docs) as [L|] eqn:EL; [|discriminate].
  destruct (run init_state L) as [st0|] eqn:Er; [|discriminate]. injection H as <-.
  pose proof (irun_erase (tagged L) iinit) as He.
  unfold tagged in He. rewrite map_snd_combine_seq in He.
  change (erase iinit) with init_state in He. rewrite Er in He.
  destruct (irun iinit (combine (seq 0 (length L)) L)) as [st|] eqn:Ei; [|discriminate].
  injection He as He.
  assert (HI : Inv L (length L) st) by (apply (irun_inv L [] L 0 iinit st); auto; apply inv_init).
  exists L, st. split; [reflexivity|]. split; [exact Ei|].
  split; [rewrite ifinish_erase, He; reflexivity|].
  split; [exact HI|]. split; [apply (ifinish_ok L (length L) st HI)|].
  unfold ifinish. apply Forall_app. split.
  - apply (irun_title L [] L 0 iinit st); auto; try apply inv_init; constructor.
  - apply iflush_title. apply (inv_cur _ _ _ HI).
Qed.

Lemma clean_default_title : forall ty,
  clean_section_title (TStr (default_title ty)) = default_title ty.
Proof. intros []; vm_compute; reflexivity. Qed.

(** Fragments without text leave the whole state unchanged. *)
Lemma run_filter_has_text : forall l st,
  run st (filter has_text l) = run st l.
Proof.
  induction l as [|d r IH]; intros st; [reflexivity|].
  simpl. unfold has_text. destruct (str_eqb (strip (page_content d)) []) eqn:E; simpl.
  - unfold step at 1. rewrite E. apply IH.
  - destruct (step st d); [apply IH | reflexivity].
Qed.

(** ** What a successful reconstruction says about its Sections *)

Lemma process_facts : forall docs secs,
  process_sequential_sections docs = Some secs ->
  exists L provs,
    sorted_docs docs = Some L /\ length provs = length secs /\
    (forall a s prov, nth_error secs a = Some s -> nth_error provs a = Some prov ->
       sec_ok L (s, prov)) /\
    StronglySorted lt (concat provs) /\
    Forall (fun j => j < length L)%nat (concat provs) /\
    (forall j, (j < length L)%nat ->
       (In j (concat provs) <-> cont_at L j <> [] /\ ~ duplicate_at L j /\ ~ noise_at L j)).
Proof.
  intros docs secs H.
  destruct (process_provenance docs secs H) as [L [st [HL [_ [Hs HI]]]]].
  exists L, (map snd (ifinish st)). split; [exact HL|].
  split; [subst secs; rewrite !length_map; reflexivity|].
  rewrite (ifinish_prov L (length L) st HI).
  split; [|split; [apply (inv_sorted _ _ _ HI) | split; [apply (inv_bound _ _ _ HI) |
                                                          apply (inv_class _ _ _ HI)]]].
  intros a s prov Ha Hb. subst secs. rewrite nth_error_map in Ha, Hb.
  destruct (nth_error (ifinish st) a) as [[s' p']|] eqn:E; [|discriminate].
  injection Ha as <-. injection Hb as <-.
  pose proof (ifinish_ok L (length L) st HI) as Hok. rewrite Forall_forall in Hok.
  apply Hok. apply nth_error_In with a. exact E.
Qed.

Lemma strongly_sorted_app : forall {A} (R : A -> A -> Prop) l1 l2,
  StronglySorted R (l1 ++ l2) ->
  StronglySorted R l1 /\ StronglySorted R l2 /\ (forall x y, In x l1 -> In y l2 -> R x y).
Proof.
  intros A R l1 l2. induction l1 as [|x r IH]; intros H; simpl in *.
  - split; [constructor|]. split; [exact H|]. intros ? ? [].
  - apply StronglySorted_inv in H as [H Hx]. destruct (IH H) as [H1 [H2 H3]].
    rewrite Forall_app in Hx. destruct Hx as [Hx1 Hx2].
    split; [constructor; assumption|]. split; [exact H2|].
    intros a b [<-|Ha] Hb; [rewrite Forall_forall in Hx2; apply Hx2; exact Hb | apply H3; assumption].
Qed.

Lemma concat_order : forall (ps : list (list nat)) a b pa pb i j,
  StronglySorted lt (concat ps) -> (a < b)%nat ->
  nth_error ps a = Some pa -> nth_error ps b = Some pb -> In i pa -> In j pb -> (i < j)%nat.
Proof.
  induction ps as [|p ps IH]; intros a b pa pb i j H Hab Ha Hb Hi Hj;
    [destruct a; discriminate|].
  simpl in H. apply strongly_sorted_app in H as [_ [H2 H3]].
  destruct a as [|a]; destruct b as [|b]; try lia; simpl in Ha, Hb.
  - injection Ha as <-. apply H3; [exact Hi|].
    apply in_concat. exists pb. split; [apply nth_error_In with b; exact Hb | exact Hj].
  - apply (IH a b pa pb); auto. lia.
Qed.

Lemma concat_part_sorted : forall (ps : list (list nat)) a pa,
  StronglySorted lt (concat ps) -> nth_error ps a = Some pa -> StronglySorted lt pa.
Proof.
  induction ps as [|p ps IH]; intros a pa H Ha; [destruct a; discriminate|].
  simpl in H. apply strongly_sorted_app in H as [H1 [H2 _]].
  destruct a as [|a]; simpl in Ha; [injection Ha as <-; exact H1 | apply (IH a); assumption].
Qed.

Lemma strongly_sorted_NoDup : forall l, StronglySorted lt l -> NoDup l.
Proof.
  induction l as [|x r IH]; intros H; [constructor|].
  apply StronglySorted_inv in H as [H Hx]. constructor; [|apply IH; exact H].
  intros Hin. rewrite Forall_forall in Hx. specialize (Hx x Hin). lia.
Qed.

Lemma exists_below_dec : forall (P : nat -> Prop),
  (forall i, {P i} + {~ P i}) -> forall n, {exists i, (i < n)%nat /\ P i} + {~ exists i, (i < n)%nat /\ P i}.
Proof.
  intros P Pd n. induction n as [|n IH].
  - right. intros [i [Hi _]]. lia.
  - destruct IH as [IH|IH]; [left; destruct IH as [i [Hi Hp]]; exists i; split; [lia|exact Hp]|].
    destruct (Pd n) as [Hn|Hn]; [left; exists n; split; [lia|exact Hn]|].
    right. intros [i [Hi Hp]]. destruct (Nat.eq_dec i n) as [->|Hin]; [contradiction|].
    apply IH. exists i. split; [lia|exact Hp].
Qed.

Lemma duplicate_at_dec : forall L j, {duplicate_at L j} + {~ duplicate_at L j}.
Proof.
  intros L j. unfold duplicate_at.
  apply (exists_below_dec (fun i => cont_at L i <> [] /\ key_at L i = key_at L j)).
  intros i. destruct (list_eq_dec ascii_dec (cont_at L i) []) as [E|E];
    [right; intros [H _]; contradiction|].
  destruct (list_eq_dec ascii_dec (key_at L i) (key_at L j)) as [K|K];
    [left; auto | right; intros [_ H]; contradiction].
Qed.

Lemma noise_at_dec : forall L j, {noise_at L j} + {~ noise_at L j}.
Proof.
  intros L j. unfold noise_at.
  destruct (should_include_content (type_at L j) (cont_at L j)) eqn:E;
    [right; intros [_ H]; discriminate|].
  destruct (type_at L j); [right; intros [[H|H] _]; discriminate | right; intros [[H|H] _]; discriminate
                          | left; auto | left; auto].
Qed.

(** C8: each fragment of the sorted input with non-empty stripped text is
    used by exactly one emitted Section (once), or is dropped as a duplicate
    of an earlier key, or is dropped as table/figure noise; a fragment whose
    stripped text is empty is used by no Section, and removing all such
    fragments leaves the whole pass, seen keys included, unchanged.  Each
    Section's content is the join of the texts of the fragments it uses. *)
Theorem C8_completeness_modulo_filtering : forall docs secs,
  process_sequential_sections docs = Some secs ->
  exists L provs,
    sorted_docs docs = Some L /\ Permutation L docs /\
    length provs = length secs /\
    (forall a s prov, nth_error secs a = Some s -> nth_error provs a = Some prov ->
       prov <> [] /\ content s = join [" "%char] (map (cont_at L) prov)) /\
    (forall j, (j < length L)%nat ->
       (cont_at L j = [] -> count_occ Nat.eq_dec (concat provs) j = 0%nat) /\
       (cont_at L j <> [] ->
          count_occ Nat.eq_dec (concat provs) j = 1%nat \/
          (duplicate_at L j /\ count_occ Nat.eq_dec (concat provs) j = 0%nat) \/
          (noise_at L j /\ count_occ Nat.eq_dec (concat provs) j = 0%nat))) /\
    run init_state (filter has_text L) = run init_state L.
Proof.
  intros docs secs H.
  destruct (process_facts docs secs H) as [L [provs [HL [Hlen [Hok [Hs [Hb Hcl]]]]]]].
  exists L, provs. split; [exact HL|].
  split; [apply (sorted_docs_spec docs L HL)|].
  split; [exact Hlen|].
  split; [intros a s prov Ha Hp; destruct (Hok a s prov Ha Hp) as [H1 [H2 _]]; auto|].
  split; [|apply run_filter_has_text].
  intros j Hj. pose proof (strongly_sorted_NoDup _ Hs) as Hnd.
  split.
  - intros He. apply count_occ_not_In. rewrite (Hcl j Hj). intros [Hne _]. contradiction.
  - intros Hne. destruct (in_dec Nat.eq_dec j (concat provs)) as [Hin|Hin].
    + left. apply (proj1 (NoDup_count_occ' Nat.eq_dec (concat provs)) Hnd). exact Hin.
    + right. apply (count_occ_not_In Nat.eq_dec) in Hin as Hc. rewrite Hc.
      destruct (duplicate_at_dec L j) as [Hd|Hd]; [left; auto|].
      destruct (noise_at_dec L j) as [Hn|Hn]; [right; auto|].
      exfalso. apply Hin. apply (Hcl j Hj). auto.
Qed.

(** C3 (amended): an emitted paragraph Section is the join of the texts of
    the fragments it was built from, in order, and its page and title are
    those of the LAST of these fragments: each continuation replaces the
    buffered metadata by its own. *)
Theorem C3_paragraph_section_last_fragment : forall docs secs,
  process_sequential_sections docs = Some secs ->
  exists L provs,
    sorted_docs docs = Some L /\ length provs = length secs /\
    forall a s prov, nth_error secs a = Some s -> nth_error provs a = Some prov ->
      type s = Paragraph ->
      prov <> [] /\ StronglySorted lt prov /\
      content s = join [" "%char] (map (cont_at L) prov) /\
      page s = page_of (meta_at L (last prov 0%nat)) /\
      title s = clean_section_title (get_title (meta_at L (last prov 0%nat)) (lit "Paragraph")).
Proof.
  intros docs secs H.
  destruct (process_facts docs secs H) as [L [provs [HL [Hlen [Hok [Hs _]]]]]].
  exists L, provs. split; [exact HL|]. split; [exact Hlen|].
  intros a s prov Ha Hp Ht. destruct (Hok a s prov Ha Hp) as [H1 [H2 H3]].
  simpl in H1, H2, H3. destruct (H3 Ht) as [H4 H5].
  split; [exact H1|]. split; [apply (concat_part_sorted provs a); assumption|]. auto.
Qed.

(** C9: Sections come out in the order of their fragments in the sorted
    input: every fragment of an earlier Section precedes every fragment of a
    later one, with a (page, paragraph number) key no greater, so the
    minimum key of the earlier Section is at most that of the later one;
    inside a Section the texts are joined in sorted-input order. *)
Theorem C9_order_preserved : forall docs secs,
  process_sequential_sections docs = Some secs ->
  exists L provs,
    sorted_docs docs = Some L /\ length provs = length secs /\
    (forall a s prov, nth_error secs a = Some s -> nth_error provs a = Some prov ->
       prov <> [] /\ StronglySorted lt prov /\
       content s = join [" "%char] (map (cont_at L) prov)) /\
    (forall a b pa pb i j, (a < b)%nat ->
       nth_error provs a = Some pa -> nth_error provs b = Some pb -> In i pa -> In j pb ->
       (i < j)%nat /\
       exists ki kj, sort_key (doc_at L i) = Some ki /\ sort_key (doc_at L j) = Some kj /\
                     key_leb ki kj = true).
Proof.
  intros docs secs H.
  destruct (process_facts docs secs H) as [L [provs [HL [Hlen [Hok [Hs [Hb _]]]]]]].
  exists L, provs. split; [exact HL|]. split; [exact Hlen|].
  split.
  - intros a s prov Ha Hp. destruct (Hok a s prov Ha Hp) as [H1 [H2 _]].
    split; [exact H1|]. split; [apply (concat_part_sorted provs a); assumption | exact H2].
  - intros a b pa pb i j Hab Ha Hpb Hi Hj.
    assert (Hij : (i < j)%nat) by (apply (concat_order provs a b pa pb); assumption).
    split; [exact Hij|].
    apply (proj2 (proj2 (sorted_docs_spec docs L HL))); [exact Hij|].
    rewrite Forall_forall in Hb. apply Hb. apply in_concat. exists pb.
    split; [apply nth_error_In with b; exact Hpb | exact Hj].
Qed.

Lemma C3_paragraph_section_last_fragment_witness :
  exists secs L (provs : list (list nat)),
    process_sequential_sections merged_docs = Some secs /\
    sorted_docs merged_docs = Some L /\ length provs = length secs /\
    map page secs = [4%Z].
Proof.
  destruct (process_sequential_sections merged_docs) as [secs|] eqn:E;
    [|vm_compute in E; discriminate].
  destruct (C3_paragraph_section_last_fragment merged_docs secs E) as [L [provs [HL [Hlen _]]]].
  exists secs, L, provs. split; [reflexivity|]. split; [exact HL|]. split; [exact Hlen|].
  vm_compute in E. injection E as <-. reflexivity.
Defined.

Lemma C8_completeness_modulo_filtering_witness :
  exists secs L (provs : list (list nat)),
    process_sequential_sections dup_docs = Some secs /\
    sorted_docs dup_docs = Some L /\ length provs = length secs /\
    count_occ Nat.eq_dec (concat provs) 2%nat = 0%nat.
Proof.
  destruct (process_sequential_sections dup_docs) as [secs|] eqn:E;
    [|vm_compute in E; discriminate].
  destruct (C8_completeness_modulo_filtering dup_docs secs E)
    as [L [provs [HL [_ [Hlen [_ [Hj _]]]]]]].
  exists secs, L, provs. split; [reflexivity|]. split; [exact HL|]. split; [exact Hlen|].
  vm_compute in HL. injection HL as <-.
  apply (proj1 (Hj 2%nat ltac:(simpl; lia))). vm_compute. reflexivity.
Defined.

Lemma C9_order_preserved_witness :
  exists secs L (provs : list (list nat)),
    process_sequential_sections order_docs = Some secs /\
    sorted_docs order_docs = Some L /\ length provs = length secs /\
    map content secs = [lit "Introduction"; lit "Hello world."].
Proof.
  destruct (process_sequential_sections order_docs) as [secs|] eqn:E;
    [|vm_compute in E; discriminate].
  destruct (C9_order_preserved order_docs secs E) as [L [provs [HL [Hlen _]]]].
  exists secs, L, provs. split; [reflexivity|]. split; [exact HL|]. split; [exact Hlen|].
  vm_compute in E. injection E as <-. reflexivity.
Defined.

(** ** Titles and duplicates of the emitted Sections *)

(** C2 (amended): every emitted Section is paired, in the pass with
    provenance, with the fragments it was built from (one for a header,
    table or figure), and its title is cleaned from the [section_title] of
    the LAST of them.  When that key is absent, a paragraph Section is titled
    "Paragraph" and a header, table or figure Section "Unknown"; a [None],
    empty or "None" title gives "Unknown Section"; any other hint gives its
    blank-separated words joined by single spaces (trimmed, internal
    whitespace runs collapsed). *)
Theorem C2_title_cleaning : forall docs secs,
  process_sequential_sections docs = Some secs ->
  exists L st,
    sorted_docs docs = Some L /\ irun iinit (tagged L) = Some st /\
    secs = map fst (ifinish st) /\
    forall s prov, In (s, prov) (ifinish st) ->
      prov <> [] /\ content s = join [" "%char] (map (cont_at L) prov) /\
      (type s <> Paragraph -> exists j, prov = [j]) /\
      title s = clean_section_title
                  (get_title (meta_at L (last prov 0%nat)) (default_title (type s))) /\
      (m_section_title (meta_at L (last prov 0%nat)) = None ->
         (type s = Paragraph -> title s = lit "Paragraph") /\
         (type s <> Paragraph -> title s = lit "Unknown")) /\
      (m_section_title (meta_at L (last prov 0%nat)) = Some TNone \/
       m_section_title (meta_at L (last prov 0%nat)) = Some (TStr []) \/
       m_section_title (meta_at L (last prov 0%nat)) = Some (TStr (lit "None")) ->
         title s = lit "Unknown Section") /\
      (forall h, m_section_title (meta_at L (last prov 0%nat)) = Some (TStr h) ->
         h <> [] -> h <> lit "None" -> title s = join [" "%char] (words h)).
Proof.
  intros docs secs H.
  destruct (process_irun docs secs H) as [L [st [HL [Hi [Hs [_ [Hok Ht]]]]]]].
  exists L, st. split; [exact HL|]. split; [exact Hi|]. split; [exact Hs|].
  intros s prov Hin.
  rewrite Forall_forall in Hok, Ht.
  destruct (Hok (s, prov) Hin) as [H1 [H2 _]]. destruct (Ht (s, prov) Hin) as [H3 H4].
  simpl in H1, H2, H3, H4.
  split; [exact H1|]. split; [exact H2|]. split; [exact H3|]. split; [exact H4|].
  unfold get_title in H4.
  split; [|split].
  - intros Hn. rewrite Hn in H4. rewrite clean_default_title in H4.
    split; intros Hty; rewrite H4; [rewrite Hty; reflexivity|].
    revert Hty. destruct (type s); intros Hty; [reflexivity | contradiction Hty; reflexivity | reflexivity | reflexivity].
  - intros [Hn|[Hn|Hn]]; rewrite Hn in H4; rewrite H4; reflexivity.
  - intros h Hn Hne HN. rewrite Hn in H4. rewrite H4.
    unfold clean_section_title, str_eqb.
    destruct (list_eq_dec ascii_dec h []); [contradiction|].
    destruct (list_eq_dec ascii_dec h (lit "None")); [contradiction|].
    apply collapse_strip_words.
Qed.

(** C5 (amended): in the pass with provenance, which pairs each emitted
    Section with the fragments whose texts it joins, a fragment whose key
    (page, raw [para] value, first 50 characters of its stripped text)
    equals that of an earlier fragment with non-empty stripped text is used
    by no Section, whatever the rest of its text. *)
Theorem C5_duplicate_key_skipped : forall docs secs,
  process_sequential_sections docs = Some secs ->
  exists L st,
    sorted_docs docs = Some L /\ irun iinit (tagged L) = Some st /\
    secs = map fst (ifinish st) /\
    (forall s prov, In (s, prov) (ifinish st) ->
       prov <> [] /\ content s = join [" "%char] (map (cont_at L) prov)) /\
    forall i j, (i < j)%nat -> (j < length L)%nat ->
      cont_at L i <> [] -> key_at L i = key_at L j ->
      forall s prov, In (s, prov) (ifinish st) -> ~ In j prov.
Proof.
  intros docs secs H.
  destruct (process_irun docs secs H) as [L [st [HL [Hi [Hs [HI [Hok _]]]]]]].
  exists L, st. split; [exact HL|]. split; [exact Hi|]. split; [exact Hs|].
  split.
  - intros s prov Hin. rewrite Forall_forall in Hok.
    destruct (Hok (s, prov) Hin) as [H1 [H2 _]]. auto.
  - intros i j Hij Hj Hne Hk s prov Hin Hjp.
    assert (Hc : In j (prov_all st)).
    { rewrite <- (ifinish_prov L (length L) st HI). apply in_concat.
      exists prov. split; [|exact Hjp]. apply (in_map snd (ifinish st) (s, prov)). exact Hin. }
    apply (inv_class _ _ _ HI j Hj) in Hc as [_ [Hnd _]]. apply Hnd. exists i. auto.
Qed.

Lemma C2_title_cleaning_witness :
  exists secs L st,
    process_sequential_sections order_docs = Some secs /\
    sorted_docs order_docs = Some L /\ irun iinit (tagged L) = Some st /\
    secs = map fst (ifinish st) /\
    map title secs = [lit "Introduction"; lit "Paragraph"].
Proof.
  destruct (process_sequential_sections order_docs) as [secs|] eqn:E;
    [|vm_compute in E; discriminate].
  destruct (C2_title_cleaning order_docs secs E) as [L [st [HL [Hi [Hs _]]]]].
  exists secs, L, st. split; [reflexivity|]. split; [exact HL|]. split; [exact Hi|].
  split; [exact Hs|]. vm_compute in E. injection E as <-. vm_compute. reflexivity.
Defined.

Lemma C5_duplicate_key_skipped_witness :
  exists secs L st,
    process_sequential_sections dup_long_docs = Some secs /\
    sorted_docs dup_long_docs = Some L /\ irun iinit (tagged L) = Some st /\
    secs = map fst (ifinish st) /\
    (forall s prov, In (s, prov) (ifinish st) -> ~ In 1%nat prov) /\
    map content secs = [lit "Patients were randomised to surgery or to watchful waiting."].
Proof.
  destruct (process_sequential_sections dup_long_docs) as [secs|] eqn:E;
    [|vm_compute in E; discriminate].
  destruct (C5_duplicate_key_skipped dup_long_docs secs E) as [L [st [HL [Hi [Hs [_ Hd]]]]]].
  exists secs, L, st. split; [reflexivity|]. split; [exact HL|]. split; [exact Hi|].
  split; [exact Hs|]. split.
  - vm_compute in HL. injection HL as <-.
    apply (Hd 0%nat 1%nat); [lia | simpl; lia | vm_compute; discriminate | vm_compute; reflexivity].
  - vm_compute in E. injection E as <-. vm_compute. reflexivity.
Defined.

(** * Further properties *)

Lemma digit_not_space : forall c, is_digit c = true -> is_space c = false.
Proof.
  intros c. unfold is_digit, is_space. set (n := nat_of_ascii c). clearbody n.
  intros H. revert H. leb_cases.
Qed.

Lemma lstrip_spaces_app : forall a x, Forall (fun c => is_space c = true) a ->
  lstrip (a ++ x) = lstrip x.
Proof. induction a as [|c a IH]; intros x H; [reflexivity|]. inversion H; subst. simpl. rewrite H2. auto. Qed.

Lemma strip_padded : forall t a b,
  Forall (fun c => is_space c = false) t -> t <> [] ->
  Forall (fun c => is_space c = true) a -> Forall (fun c => is_space c = true) b ->
  strip (a ++ t ++ b) = t.
Proof.
  intros t a b Ht Hne Ha Hb. unfold strip, rstrip.
  rewrite lstrip_spaces_app by exact Ha.
  destruct t as [|c t']; [contradiction|]. inversion Ht; subst.
  assert (El : lstrip ((c :: t') ++ b) = (c :: t') ++ b) by (simpl; rewrite H1; reflexivity).
  rewrite El, rev_app_distr, lstrip_spaces_app by (apply Forall_rev; exact Hb).
  assert (Hr : Forall (fun c => is_space c = false) (rev (c :: t'))) by (apply Forall_rev; exact Ht).
  destruct (rev (c :: t')) as [|x r] eqn:E.
  - apply (f_equal (@length ascii)) in E. rewrite length_rev in E. discriminate.
  - inversion Hr; subst. simpl. rewrite H3. rewrite <- E, rev_involutive. reflexivity.
Qed.

Lemma digit_not_int_space : forall c, is_digit c = true -> is_int_space c = false.
Proof.
  intros c. unfold is_digit, is_int_space. set (n := nat_of_ascii c). clearbody n.
  destruct (Nat.eqb_spec n 32); [subst; discriminate|]. rewrite orb_false_r.
  leb_cases.
Qed.

Lemma int_lstrip_app : forall a x, Forall (fun c => is_int_space c = true) a ->
  int_lstrip (a ++ x) = int_lstrip x.
Proof. induction a as [|c a IH]; intros x H; [reflexivity|]. inversion H; subst. simpl. rewrite H2. auto. Qed.

Lemma int_strip_padded : forall t a b,
  Forall (fun c => is_int_space c = false) t -> t <> [] ->
  Forall (fun c => is_int_space c = true) a -> Forall (fun c => is_int_space c = true) b ->
  int_strip (a ++ t ++ b) = t.
Proof.
  intros t a b Ht Hne Ha Hb. unfold int_strip.
  rewrite int_lstrip_app by exact Ha.
  destruct t as [|c t']; [contradiction|]. inversion Ht; subst.
  assert (El : int_lstrip ((c :: t') ++ b) = (c :: t') ++ b) by (simpl; rewrite H1; reflexivity).
  rewrite El, rev_app_distr, int_lstrip_app by (apply Forall_rev; exact Hb).
  assert (Hr : Forall (fun c => is_int_space c = false) (rev (c :: t'))) by (apply Forall_rev; exact Ht).
  destruct (rev (c :: t')) as [|x r] eqn:E.
  - apply (f_equal (@length ascii)) in E. rewrite length_rev in E. discriminate.
  - inversion Hr; subst. simpl. rewrite H3. rewrite <- E, rev_involutive. reflexivity.
Qed.

Lemma digits_us_aux_digits : forall s acc, Forall (fun c => is_digit c = true) s ->
  digits_us_aux acc s = Some (fold_left dstep s acc).
Proof.
  induction s as [|c s IH]; intros acc H; [reflexivity|]. inversion H; subst.
  simpl. rewrite H2. apply IH. exact H3.
Qed.

Lemma digit_char : forall k, (k < 10)%nat ->
  is_digit (ascii_of_nat (48 + k)) = true /\ digit_val (ascii_of_nat (48 + k)) = Z.of_nat k.
Proof.
  intros k Hk. unfold is_digit, digit_val.
  rewrite nat_ascii_embedding by lia. split; [leb_cases|].
  f_equal. lia.
Qed.

Lemma digits_of_N_spec : forall f n acc, (Z.of_N n < 2 ^ Z.of_nat f)%Z ->
  exists ds, digits_of_N (S f) n acc = ds ++ acc /\ ds <> [] /\
    Forall (fun c => is_digit c = true) ds /\ fold_left dstep ds 0%Z = Z.of_N n.
Proof.
  induction f as [|f IH]; intros n acc Hn.
  - assert (n = 0%N) by lia. subst. exists ["0"%char]. repeat split; try discriminate.
    repeat constructor.
  - simpl digits_of_N.
    pose proof (N.div_mod n 10 ltac:(discriminate)) as Hdm.
    pose proof (N.mod_lt n 10 ltac:(discriminate)) as Hlt.
    destruct (digit_char (N.to_nat (n mod 10)) ltac:(lia)) as [Hd Hv].
    assert (Hz : Z.of_N n = (10 * Z.of_N (n / 10) + Z.of_N (n mod 10))%Z).
    { rewrite Hdm at 1. rewrite N2Z.inj_add, N2Z.inj_mul. reflexivity. }
    pose proof (N2Z.is_nonneg (n / 10)). pose proof (N2Z.is_nonneg (n mod 10)).
    destruct (n / 10 =? 0)%N eqn:Eq.
    + apply N.eqb_eq in Eq. exists [ascii_of_nat (48 + N.to_nat (n mod 10))].
      repeat split; try discriminate; [constructor; [exact Hd | constructor]|].
      cbn [fold_left]. unfold dstep. rewrite Hv. rewrite Eq in Hdm. rewrite N_nat_Z. lia.
    + apply N.eqb_neq in Eq.
      destruct (IH (n / 10)%N (ascii_of_nat (48 + N.to_nat (n mod 10)) :: acc)) as
        [ds [E1 [E2 [E3 E4]]]].
      { rewrite Nat2Z.inj_succ, Z.pow_succ_r in Hn by lia. lia. }
      destruct f as [|f'].
      { simpl in Hn. exfalso. lia. }
      exists (ds ++ [ascii_of_nat (48 + N.to_nat (n mod 10))]).
      rewrite <- app_assoc. split; [exact E1|]. split.
      { destruct ds; [contradiction | discriminate]. }
      split; [apply Forall_app; split; [exact E3 | constructor; [exact Hd | constructor]]|].
      rewrite fold_left_app. cbn [fold_left]. rewrite E4. unfold dstep. rewrite Hv, N_nat_Z. lia.
Qed.

Lemma pos_lt_size : forall p, (Zpos p < 2 ^ Z.of_nat (Pos.size_nat p))%Z.
Proof.
  induction p as [p IH|p IH|]; [| | reflexivity]; simpl Pos.size_nat;
    rewrite Nat2Z.inj_succ, Z.pow_succ_r by lia;
    [rewrite Pos2Z.inj_xI | rewrite Pos2Z.inj_xO]; lia.
Qed.

Lemma str_of_N_spec : forall n, str_of_N n <> [] /\
  Forall (fun c => is_digit c = true) (str_of_N n) /\
  digits_us (str_of_N n) = Some (Z.of_N n).
Proof.
  intros n. unfold str_of_N.
  destruct (digits_of_N_spec (N.size_nat n) n []) as [ds [E1 [E2 [E3 E4]]]].
  { destruct n as [|p]; [reflexivity|]. apply pos_lt_size. }
  rewrite E1, app_nil_r. split; [exact E2|]. split; [exact E3|].
  destruct ds as [|c r]; [contradiction|]. inversion E3; subst.
  simpl. rewrite H1. rewrite digits_us_aux_digits by exact H2. rewrite <- E4. reflexivity.
Qed.

Lemma digit_not_sign : forall c, is_digit c = true -> c <> "-"%char /\ c <> "+"%char.
Proof. intros c H. split; intros ->; discriminate. Qed.

Lemma py_int_digits : forall ds v, ds <> [] -> Forall (fun c => is_digit c = true) ds ->
  digits_us ds = Some v -> py_int ds = Some v.
Proof.
  intros ds v Hne Hd Hv. unfold py_int.
  assert (Hs : int_strip ds = ds).
  { rewrite <- (app_nil_l ds), <- (app_nil_r ds) at 1. apply int_strip_padded; auto.
    eapply Forall_impl; [|exact Hd]. exact digit_not_int_space. }
  rewrite Hs.
  destruct ds as [|c r]; [contradiction|]. inversion Hd; subst.
  destruct (digit_not_sign c H1) as [H3 H4].
  destruct (ascii_dec c "-") as [|_]; [contradiction|].
  destruct (ascii_dec c "+") as [|_]; [contradiction|]. exact Hv.
Qed.

(** X1: a [para] value that is the decimal form of an integer, with any
    whitespace [int()] skips around it, is read back as that integer. *)
Theorem para_index_decimal : forall pg t a b z,
  Forall (fun c => is_int_space c = true) a -> Forall (fun c => is_int_space c = true) b ->
  para_index (mkMeta pg (Some (a ++ str_of_Z z ++ b)) t) = Some z.
Proof.
  intros pg t a b z Ha Hb. unfold para_index, get_para, py_int. simpl m_para. cbv iota.
  assert (Hns : forall n, Forall (fun c => is_int_space c = false) (str_of_N n)).
  { intros n. eapply Forall_impl; [exact digit_not_int_space | apply str_of_N_spec]. }
  destruct z as [|p|p].
  - change (str_of_Z 0) with (str_of_N 0).
    rewrite (int_strip_padded (str_of_N 0)); [reflexivity | apply Hns | discriminate | exact Ha | exact Hb].
  - destruct (str_of_N_spec (Npos p)) as [Hne [Hd Hv]]. change (str_of_Z (Zpos p)) with (str_of_N (Npos p)).
    rewrite (int_strip_padded (str_of_N (Npos p))); [| apply Hns | exact Hne | exact Ha | exact Hb].
    destruct (str_of_N (Npos p)) as [|c r] eqn:E; [contradiction|]. inversion Hd; subst.
    destruct (digit_not_sign c H1) as [H3 H4].
    destruct (ascii_dec c "-") as [|_]; [contradiction|].
    destruct (ascii_dec c "+") as [|_]; [contradiction|]. exact Hv.
  - destruct (str_of_N_spec (Npos p)) as [Hne [Hd Hv]].
    change (str_of_Z (Zneg p)) with ("-"%char :: str_of_N (Npos p)).
    rewrite (int_strip_padded ("-"%char :: str_of_N (Npos p)));
      [| constructor; [reflexivity | apply Hns] | discriminate | exact Ha | exact Hb].
    destruct (ascii_dec "-" "-") as [_|]; [|contradiction]. rewrite Hv. reflexivity.
Qed.

Lemma para_index_decimal_witness :
  para_index (mkMeta None (Some (lit " " ++ str_of_Z (-12) ++ [newline])) None) = Some (-12)%Z.
Proof. apply para_index_decimal; repeat constructor. Defined.

Lemma drop_nondigits : forall p x, Forall (fun c => is_digit c = false) p ->
  drop_while (fun c => negb (is_digit c)) (p ++ x) = drop_while (fun c => negb (is_digit c)) x.
Proof. induction p as [|c p IH]; intros x H; [reflexivity|]. inversion H; subst. simpl. rewrite H2. simpl. auto. Qed.

Lemma first_digit_run_app : forall p ds r,
  Forall (fun c => is_digit c = false) p -> ds <> [] -> Forall (fun c => is_digit c = true) ds ->
  match r with c :: _ => is_digit c = false | [] => True end ->
  first_digit_run (p ++ ds ++ r) = ds.
Proof.
  intros p ds r Hp Hne Hd Hr. unfold first_digit_run.
  rewrite drop_nondigits by exact Hp.
  destruct ds as [|c ds']; [contradiction|]. inversion Hd; subst. simpl. rewrite H1. simpl.
  rewrite H1. f_equal. clear -H2 Hr. induction H2 as [|x ds' Hx Hds IH]; simpl.
  - destruct r as [|y r]; [reflexivity|]. simpl. rewrite Hr. reflexivity.
  - rewrite Hx. f_equal. exact IH.
Qed.

(** X2: for a [pages] string, the page number is the first run of digits:
    text without digits, then the decimal form of [n], then anything not
    starting with a digit gives [n]. *)
Theorem extract_page_number_first_run : forall p n r,
  Forall (fun c => is_digit c = false) p ->
  match r with c :: _ => is_digit c = false | [] => True end ->
  extract_page_number (PStr (p ++ str_of_N n ++ r)) = Z.of_N n.
Proof.
  intros p n r Hp Hr. destruct (str_of_N_spec n) as [Hne [Hd Hv]].
  unfold extract_page_number. rewrite first_digit_run_app by assumption.
  destruct (str_of_N n) as [|c s] eqn:E; [contradiction|].
  rewrite (py_int_digits _ _ Hne Hd Hv). reflexivity.
Qed.

Lemma extract_page_number_first_run_witness :
  extract_page_number (PStr (lit "pp. " ++ str_of_N 117 ++ lit "-121")) = 117%Z.
Proof. apply (extract_page_number_first_run (lit "pp. ") 117 (lit "-121")); repeat constructor. Defined.

(** ** Classification *)

Lemma search_ex : forall m s, search m s = true -> exists p x, s = p ++ x /\ m x = true.
Proof.
  induction s as [|c s IH]; simpl; intros H.
  - exists [], []. rewrite orb_false_r in H. auto.
  - apply orb_true_iff in H as [H|H]; [exists [], (c :: s); auto|].
    destruct (IH H) as [p [x [-> Hx]]]. exists (c :: p), x. auto.
Qed.

Lemma has_pipe_app : forall p x, has_pipe (p ++ x) = has_pipe p || has_pipe x.
Proof. intros p x. unfold has_pipe. apply existsb_app. Qed.

Lemma lstrip_suffix : forall r, exists p, r = p ++ lstrip r.
Proof.
  induction r as [|c r IH]; [exists []; reflexivity|]. simpl.
  destruct (is_space c); [destruct IH as [p Hp]; exists (c :: p); simpl; congruence|].
  exists []. reflexivity.
Qed.

Lemma search_pipe_has_pipe : forall s, search table_pattern_pipe s = has_pipe s.
Proof.
  induction s as [|c s IH]; [reflexivity|]. simpl. rewrite IH. unfold has_pipe. simpl.
  destruct (ascii_dec c pipe); reflexivity.
Qed.

Lemma spaced_pipe_has_pipe : forall s,
  search table_pattern_spaced_pipe s = true -> has_pipe s = true.
Proof.
  intros s H. destruct (search_ex _ _ H) as [p [x [-> Hx]]].
  rewrite has_pipe_app, orb_true_iff. right.
  destruct x as [|c r]; [discriminate|]. unfold table_pattern_spaced_pipe, ws1_then in Hx.
  apply andb_true_iff in Hx as [_ Hx].
  destruct (lstrip_suffix r) as [q Hq]. destruct (lstrip r) as [|d r'] eqn:E; [discriminate|].
  destruct (ascii_dec d pipe) as [->|]; [|discriminate].
  rewrite Hq. change (has_pipe (c :: q ++ pipe :: r') = true).
  unfold has_pipe. simpl. rewrite existsb_app. simpl.
  destruct (ascii_dec pipe pipe); [|contradiction]. rewrite !orb_true_r. reflexivity.
Qed.

Lemma split_nl_has_pipe : forall s l, In l (split_nl s) -> has_pipe l = true -> has_pipe s = true.
Proof.
  induction s as [|c s IH]; simpl; intros l Hin Hp.
  - destruct Hin as [<-|[]]. discriminate.
  - destruct (ascii_dec c newline) as [->|Hc].
    + destruct Hin as [<-|Hin]; [discriminate|]. unfold has_pipe. simpl.
      change (existsb _ s) with (has_pipe s). rewrite (IH l Hin Hp). now rewrite ?orb_true_r.
    + unfold has_pipe; simpl; change (existsb _ s) with (has_pipe s).
      destruct (split_nl s) as [|l' ls] eqn:E.
      * destruct Hin as [<-|[]]. unfold has_pipe in Hp. simpl in Hp.
        rewrite orb_false_r in Hp. rewrite Hp. reflexivity.
      * destruct Hin as [<-|Hin].
        -- unfold has_pipe in Hp; simpl in Hp; change (existsb _ l') with (has_pipe l') in Hp.
           apply orb_true_iff in Hp as [Hp|Hp]; [rewrite Hp; reflexivity|].
           rewrite (IH l' (or_introl eq_refl) Hp). now rewrite ?orb_true_r.
        -- rewrite (IH l (or_intror Hin) Hp). now rewrite ?orb_true_r.
Qed.

Lemma count_pos : forall {A} (p : A -> bool) l, (0 < count p l)%nat -> exists x, In x l /\ p x = true.
Proof.
  intros A p l H. unfold count in H. destruct (filter p l) as [|x r] eqn:E; [simpl in H; lia|].
  exists x. apply filter_In. rewrite E. left. reflexivity.
Qed.

(** X3: every text containing a pipe is a table; for a text without a pipe
    only the "Table n", number-run and capital-letter patterns can make it
    one: the 30%-of-lines pipe rule never decides. *)
Theorem is_table_content_pipe : forall content,
  (has_pipe content = true -> is_table_content content = true) /\
  (has_pipe content = false ->
     is_table_content content =
       search table_pattern_table_n content
       || search_multiline_anchored table_pattern_numbers content
       || search_multiline_anchored table_pattern_letters content).
Proof.
  intros content. unfold is_table_content. rewrite search_pipe_has_pipe. split.
  - intros H. rewrite H. reflexivity.
  - intros H. rewrite H.
    destruct (search table_pattern_spaced_pipe content) eqn:E1.
    { apply spaced_pipe_has_pipe in E1. congruence. }
    destruct (search table_pattern_table_n content); [reflexivity|].
    destruct (search_multiline_anchored table_pattern_numbers content); [reflexivity|].
    destruct (search_multiline_anchored table_pattern_letters content); [reflexivity|].
    cbv beta iota zeta. cbn [orb]. destruct (2 <? length (split_nl content))%nat; [|reflexivity].
    destruct (3 * _ <? 10 * _)%nat eqn:E; [|reflexivity].
    change (count (fun l => existsb (fun c => if ascii_dec c pipe then true else false) l)
                  (split_nl content)) with (count has_pipe (split_nl content)) in E.
    apply Nat.ltb_lt in E. destruct (count_pos has_pipe (split_nl content)) as [l [Hl Hp]]; [lia|].
    rewrite (split_nl_has_pipe _ _ Hl Hp) in H. discriminate.
Qed.

Lemma is_table_content_pipe_witness :
  is_table_content (lit "dose | route") = true /\
  is_table_content (lit "see Table 2") =
    search table_pattern_table_n (lit "see Table 2")
    || search_multiline_anchored table_pattern_numbers (lit "see Table 2")
    || search_multiline_anchored table_pattern_letters (lit "see Table 2").
Proof.
  split; [apply (proj1 (is_table_content_pipe _)) | apply (proj2 (is_table_content_pipe _))];
    vm_compute; reflexivity.
Defined.

Lemma upper_range : forall c, is_upper c = true ->
  (65 <= nat_of_ascii c /\ nat_of_ascii c <= 90)%nat.
Proof.
  intros c H. unfold is_upper in H. apply andb_true_iff in H as [H1 H2].
  apply Nat.leb_le in H1, H2. lia.
Qed.

Lemma lower_classes : forall c,
  to_lower_char (to_lower_char c) = to_lower_char c /\
  is_space (to_lower_char c) = is_space c /\ is_digit (to_lower_char c) = is_digit c.
Proof.
  intros c. unfold to_lower_char. destruct (is_upper c) eqn:E; [|rewrite E; auto].
  apply upper_range in E.
  assert (Hu : is_upper (ascii_of_nat (nat_of_ascii c + 32)) = false).
  { unfold is_upper. rewrite nat_ascii_embedding by lia. leb_cases. }
  rewrite Hu. split; [reflexivity|].
  unfold is_space, is_digit. rewrite nat_ascii_embedding by lia.
  split; leb_cases.
Qed.

Lemma lower_idem : forall s, lower (lower s) = lower s.
Proof. intros s. unfold lower. rewrite map_map. apply map_ext. intros c. apply lower_classes. Qed.

Lemma lstrip_lower : forall s, lstrip (lower s) = lower (lstrip s).
Proof.
  induction s as [|c s IH]; [reflexivity|]. simpl. rewrite (proj1 (proj2 (lower_classes c))).
  destruct (is_space c); [exact IH | reflexivity].
Qed.

Lemma skipn_lower : forall n s, skipn n (lower s) = lower (skipn n s).
Proof. intros n s. unfold lower. revert s; induction n; intros [|c s]; simpl; auto. Qed.

Lemma ws1_digit_lower : forall s,
  ws1_then starts_digit1 (lower s) = ws1_then starts_digit1 s.
Proof.
  intros [|c r]; [reflexivity|]. simpl. rewrite lstrip_lower.
  rewrite (proj1 (proj2 (lower_classes c))). f_equal.
  destruct (lstrip r) as [|d u]; [reflexivity|]. simpl. apply lower_classes.
Qed.

Lemma search_lower : forall m, (forall x, m (lower x) = m x) ->
  forall s, search m (lower s) = search m s.
Proof.
  intros m Hm. induction s as [|c s IH]; [reflexivity|].
  change (lower (c :: s)) with (to_lower_char c :: lower s). simpl. rewrite IH.
  f_equal. apply (Hm (c :: s)).
Qed.

Lemma prefix_ci_lower : forall p x, is_prefix_ci p (lower x) = is_prefix_ci p x.
Proof. intros p x. unfold is_prefix_ci. rewrite lower_idem. reflexivity. Qed.

Lemma is_figure_content_lower : forall s, is_figure_content (lower s) = is_figure_content s.
Proof.
  intros s. unfold is_figure_content.
  rewrite !(search_lower (is_prefix_ci _)) by apply prefix_ci_lower.
  rewrite !search_lower; [reflexivity| |];
    intros x; unfold figure_pattern_figure_n, figure_pattern_fig_n;
    rewrite prefix_ci_lower, skipn_lower, ws1_digit_lower; reflexivity.
Qed.

(** X4: figure detection ignores case: two texts equal up to the case of
    their letters are both figures or both not. *)
Theorem is_figure_content_case : forall s t, lower s = lower t ->
  is_figure_content s = is_figure_content t.
Proof.
  intros s t H. rewrite <- (is_figure_content_lower s), <- (is_figure_content_lower t), H.
  reflexivity.
Qed.

Lemma is_figure_content_case_witness :
  lower (lit "see FIGURE 2") = lower (lit "See figure 2") /\
  is_figure_content (lit "see FIGURE 2") = is_figure_content (lit "See figure 2").
Proof. split; [vm_compute; reflexivity | apply is_figure_content_case; vm_compute; reflexivity]. Defined.

(** A fragment with a usable title hint is classified header or paragraph,
    whatever its text, and so passes [should_include_content]. *)
Lemma hinted_fragment_kept : forall m c, title_hint m <> None ->
  (determine_section_type m c = Header \/ determine_section_type m c = Paragraph) /\
  should_include_content (determine_section_type m c) c = true.
Proof.
  intros m c H. unfold determine_section_type.
  destruct (title_hint m) as [t|]; [|contradiction].
  destruct (_ && _); auto.
Qed.

(** X5: in the pass with provenance, every fragment of the sorted input
    with non-empty text and a usable title hint that is not a duplicate of
    an earlier key goes into some emitted Section, whatever its text (pipes,
    "Table 3", "Figure 1", ...): it is never dropped as table or figure
    noise. *)
Theorem hinted_fragment_used : forall docs secs,
  process_sequential_sections docs = Some secs ->
  exists L st,
    sorted_docs docs = Some L /\ irun iinit (tagged L) = Some st /\
    secs = map fst (ifinish st) /\
    forall j, (j < length L)%nat -> cont_at L j <> [] ->
      title_hint (meta_at L j) <> None -> ~ duplicate_at L j ->
      exists s prov, In (s, prov) (ifinish st) /\ In j prov.
Proof.
  intros docs secs H.
  destruct (process_irun docs secs H) as [L [st [HL [Hi [Hs [HI _]]]]]].
  exists L, st. split; [exact HL|]. split; [exact Hi|]. split; [exact Hs|].
  intros j Hj Hne Hh Hnd.
  assert (Hc : In j (prov_all st)).
  { apply (inv_class _ _ _ HI j Hj). split; [exact Hne|]. split; [exact Hnd|].
    intros [Hty Hinc]. unfold type_at in Hty, Hinc.
    destruct (hinted_fragment_kept (meta_at L j) (cont_at L j) Hh) as [[E|E] Hk];
      rewrite E in Hty; [| destruct Hty as [Hty|Hty]; discriminate ..].
    destruct Hty as [Hty|Hty]; discriminate. }
  rewrite <- (ifinish_prov L (length L) st HI) in Hc.
  apply in_concat in Hc as [prov [Hp Hjp]]. apply in_map_iff in Hp as [[s prov'] [Hsp Hin]].
  simpl in Hsp. subst prov'. exists s, prov. auto.
Qed.

Lemma hinted_fragment_used_witness :
  exists secs L st,
    process_sequential_sections [frag "1" "1" (Some (TStr (lit "Results"))) "| a | b |"] = Some secs /\
    sorted_docs [frag "1" "1" (Some (TStr (lit "Results"))) "| a | b |"] = Some L /\
    irun iinit (tagged L) = Some st /\
    exists s prov, In (s, prov) (ifinish st) /\ In 0%nat prov.
Proof.
  destruct (process_sequential_sections [frag "1" "1" (Some (TStr (lit "Results"))) "| a | b |"])
    as [secs|] eqn:E; [|vm_compute in E; discriminate].
  destruct (hinted_fragment_used _ secs E) as [L [st [HL [Hi [_ Hu]]]]].
  exists secs, L, st. split; [reflexivity|]. split; [exact HL|]. split; [exact Hi|].
  vm_compute in HL. injection HL as <-.
  apply Hu; [simpl; lia | vm_compute; discriminate | vm_compute; discriminate |].
  intros [i [Hi0 _]]. lia.
Defined.

Lemma count_mono : forall {A} (p q : A -> bool) l,
  (forall x, In x l -> p x = true -> q x = true) -> (count p l <= count q l)%nat.
Proof.
  intros A p q l H. unfold count. induction l as [|x l IH]; [reflexivity|]. simpl.
  assert (IH' : (length (filter p l) <= length (filter q l))%nat) by (apply IH; intros y Hy; apply H; right; exact Hy).
  destruct (p x) eqn:Ep.
  - rewrite (H x (or_introl eq_refl) Ep). simpl. lia.
  - destruct (q x); simpl; lia.
Qed.

Lemma is_purely_tabular_all_piped : forall s,
  (forall l, In l (split_nl s) -> non_blank l = true -> has_pipe l = true) ->
  is_purely_tabular s = true.
Proof.
  intros s H. unfold is_purely_tabular.
  destruct (count non_blank (split_nl s) =? 0)%nat eqn:E; [reflexivity|].
  apply Nat.eqb_neq in E. apply Nat.ltb_lt.
  pose proof (count_mono non_blank has_pipe (split_nl s) H). lia.
Qed.

(** X6: without a usable title hint, a text with a pipe whose non-blank
    lines all contain a pipe is a table, and such a table is always
    dropped. *)
Theorem piped_table_dropped : forall m s,
  title_hint m = None -> has_pipe s = true ->
  (forall l, In l (split_nl s) -> non_blank l = true -> has_pipe l = true) ->
  determine_section_type m s = Table /\ should_include_content Table s = false.
Proof.
  intros m s Hh Hp Hl. unfold determine_section_type. rewrite Hh.
  unfold is_table_content. rewrite search_pipe_has_pipe, Hp. split; [reflexivity|].
  unfold should_include_content. rewrite (is_purely_tabular_all_piped s Hl).
  apply andb_false_r.
Qed.

Lemma piped_table_dropped_witness :
  determine_section_type no_meta (lit "| drug | dose | route | frequency |" ++ [newline] ++
                                  lit "| cefazolin | 2 g | IV | once |") = Table /\
  should_include_content Table (lit "| drug | dose | route | frequency |" ++ [newline] ++
                                lit "| cefazolin | 2 g | IV | once |") = false.
Proof.
  apply piped_table_dropped; [reflexivity | vm_compute; reflexivity |].
  intros l Hl _. vm_compute in Hl.
  destruct Hl as [<-|[<-|[]]]; vm_compute; reflexivity.
Defined.

Lemma split_nl_app_nl : forall x y, split_nl (x ++ newline :: y) = split_nl x ++ split_nl y.
Proof.
  induction x as [|c x IH]; intros y; [reflexivity|]. simpl. rewrite IH.
  destruct (ascii_dec c newline); [reflexivity|].
  destruct (split_nl x) as [|l ls] eqn:E; [destruct x as [|? ?]; simpl in E;
    [discriminate | destruct (ascii_dec _ _); [discriminate | destruct (split_nl _); discriminate]]|].
  reflexivity.
Qed.

Lemma split_nl_spaces : forall b, Forall (fun c => is_space c = true) b ->
  Forall (fun l => Forall (fun c => is_space c = true) l) (split_nl b).
Proof.
  induction b as [|c b IH]; intros H; [repeat constructor|]. inversion H; subst. simpl.
  specialize (IH H3). destruct (ascii_dec c newline); [constructor; [constructor | exact IH]|].
  destruct (split_nl b) as [|l ls]; [repeat constructor; exact H2|].
  inversion IH; subst. constructor; [constructor; assumption | assumption].
Qed.

Lemma count_app : forall {A} (p : A -> bool) l1 l2, count p (l1 ++ l2) = (count p l1 + count p l2)%nat.
Proof. intros. unfold count. rewrite filter_app, length_app. reflexivity. Qed.

Lemma count_zero : forall {A} (p : A -> bool) l, (forall x, In x l -> p x = false) -> count p l = 0%nat.
Proof.
  intros A p l H. unfold count. induction l as [|x l IH]; [reflexivity|]. simpl.
  rewrite (H x (or_introl eq_refl)). apply IH. intros y Hy. apply H. right. exact Hy.
Qed.

Lemma spaces_lstrip : forall l, Forall (fun c => is_space c = true) l -> lstrip l = [].
Proof. induction l as [|c l IH]; intros H; [reflexivity|]. inversion H; subst. simpl. rewrite H2. auto. Qed.

Lemma spaces_line : forall l, Forall (fun c => is_space c = true) l ->
  has_pipe l = false /\ starts_with_number l = false /\ non_blank l = false.
Proof.
  intros l H. split; [|split].
  - unfold has_pipe. apply Bool.not_true_iff_false. intros Hx.
    apply existsb_exists in Hx as [c [Hc Hp]]. rewrite Forall_forall in H. specialize (H c Hc).
    destruct (ascii_dec c pipe) as [->|]; [discriminate | discriminate].
  - unfold starts_with_number. rewrite spaces_lstrip by exact H. reflexivity.
  - unfold non_blank, strip, rstrip. rewrite (spaces_lstrip l H). reflexivity.
Qed.

(** X7: blank lines do not change the purely-tabular verdict: inserting a
    run of whitespace between two line breaks gives the same result. *)
Theorem is_purely_tabular_blank_lines : forall s1 b s2,
  Forall (fun c => is_space c = true) b ->
  is_purely_tabular (s1 ++ newline :: b ++ newline :: s2) =
  is_purely_tabular (s1 ++ newline :: s2).
Proof.
  intros s1 b s2 Hb. unfold is_purely_tabular.
  rewrite !split_nl_app_nl, !count_app.
  pose proof (split_nl_spaces b Hb) as Hl. rewrite Forall_forall in Hl.
  rewrite !(count_zero _ (split_nl b)); try (intros l Hin; apply (spaces_line l (Hl l Hin))).
  rewrite !Nat.add_0_l. reflexivity.
Qed.

Lemma is_purely_tabular_blank_lines_witness :
  is_purely_tabular (lit "| a |" ++ newline :: lit "   " ++ newline :: lit "| b |")
  = is_purely_tabular (lit "| a |" ++ newline :: lit "| b |").
Proof. apply is_purely_tabular_blank_lines. repeat constructor. Defined.

(** ** Titles *)

Lemma rev_cons_ne : forall (x : ascii) l, rev (x :: l) <> [].
Proof. intros x l Hr. apply (f_equal (@length ascii)) in Hr. rewrite length_rev in Hr. discriminate. Qed.

Lemma words_aux_good : forall s cur, Forall (fun c => is_space c = false) cur ->
  Forall good_word (words_aux cur s).
Proof.
  induction s as [|c s IH]; intros cur Hc; simpl.
  - destruct cur as [|x cur]; constructor; [|constructor].
    split; [apply rev_cons_ne|]. apply Forall_rev. exact Hc.
  - destruct (is_space c) eqn:E.
    + destruct cur as [|x cur]; [apply IH; constructor|]. constructor; [|apply IH; constructor].
      split; [apply rev_cons_ne|]. apply Forall_rev. exact Hc.
    + apply IH. constructor; assumption.
Qed.

Lemma words_aux_word : forall w cur x, Forall (fun c => is_space c = false) w ->
  words_aux cur (w ++ x) = words_aux (rev w ++ cur) x.
Proof.
  induction w as [|c w IH]; intros cur x H; [reflexivity|]. inversion H; subst.
  simpl. rewrite H2, IH by exact H3. rewrite <- app_assoc. reflexivity.
Qed.

Lemma words_join : forall ws, Forall good_word ws -> words (join [" "%char] ws) = ws.
Proof.
  induction ws as [|w ws IH]; intros H; [reflexivity|]. inversion H as [|? ? [Hne Hw] Hr]; subst.
  unfold words. destruct ws as [|w' ws'].
  - simpl. rewrite <- (app_nil_r w) at 1. rewrite words_aux_word by exact Hw.
    rewrite app_nil_r. simpl. destruct (rev w) eqn:E.
    + apply (f_equal (@rev ascii)) in E. rewrite rev_involutive in E. subst. contradiction.
    + rewrite <- E, rev_involutive. reflexivity.
  - change (join [" "%char] (w :: w' :: ws')) with (w ++ [" "%char] ++ join [" "%char] (w' :: ws')).
    rewrite words_aux_word by exact Hw. rewrite app_nil_r. simpl.
    destruct (rev w) eqn:E.
    + apply (f_equal (@rev ascii)) in E. rewrite rev_involutive in E. subst. contradiction.
    + rewrite <- E, rev_involutive. f_equal. apply IH. exact Hr.
Qed.

Lemma clean_as_words : forall s, s <> [] -> s <> lit "None" ->
  clean_section_title (TStr s) = join [" "%char] (words s).
Proof.
  intros s H1 H2. unfold clean_section_title, str_eqb.
  destruct (list_eq_dec ascii_dec s []); [contradiction|].
  destruct (list_eq_dec ascii_dec s (lit "None")); [contradiction|].
  apply collapse_strip_words.
Qed.

(** X8: cleaning a cleaned title changes nothing, unless the first cleaning
    gave the empty string or the string "None". *)
Theorem clean_section_title_idem : forall t,
  clean_section_title t <> [] -> clean_section_title t <> lit "None" ->
  clean_section_title (TStr (clean_section_title t)) = clean_section_title t.
Proof.
  intros t H1 H2.
  assert (Hu : clean_section_title (TStr (lit "Unknown Section")) = lit "Unknown Section")
    by reflexivity.
  destruct t as [|s]; [exact Hu|].
  destruct (list_eq_dec ascii_dec s []) as [->|Hs1]; [exact Hu|].
  destruct (list_eq_dec ascii_dec s (lit "None")) as [->|Hs2]; [exact Hu|].
  rewrite (clean_as_words s Hs1 Hs2) in *.
  rewrite (clean_as_words _ H1 H2). rewrite words_join; [reflexivity|].
  apply words_aux_good. constructor.
Qed.

Lemma clean_section_title_idem_witness :
  clean_section_title (TStr (clean_section_title (TStr (lit "  Risk   factors ")))) =
  clean_section_title (TStr (lit "  Risk   factors ")).
Proof. apply clean_section_title_idem; vm_compute; discriminate. Defined.

(** X9: a title hint made only of whitespace gives the empty title, not
    "Unknown Section". *)
Theorem clean_section_title_blank : forall s,
  s <> [] -> Forall (fun c => is_space c = true) s -> clean_section_title (TStr s) = [].
Proof.
  intros s Hne Hs. unfold clean_section_title, str_eqb.
  destruct (list_eq_dec ascii_dec s []); [contradiction|].
  destruct (list_eq_dec ascii_dec s (lit "None")) as [->|].
  { inversion Hs; subst. discriminate. }
  simpl. unfold strip, rstrip. rewrite (spaces_lstrip s Hs). reflexivity.
Qed.

Lemma clean_section_title_blank_witness :
  clean_section_title (TStr (lit " " ++ ["009"%char])) = [].
Proof. apply clean_section_title_blank; [discriminate | repeat constructor]. Defined.

(** ** Stable sorting *)

Lemma filter_insert : forall k x l,
  filter (fun y => keq (fst y) k) (insert x l) =
  if keq (fst x) k then x :: filter (fun y => keq (fst y) k) l
  else filter (fun y => keq (fst y) k) l.
Proof.
  intros k x l. induction l as [|y r IH]; simpl.
  - destruct (keq (fst x) k); reflexivity.
  - destruct (key_leb (fst x) (fst y)) eqn:Eyx; [simpl; reflexivity|].
    simpl. rewrite IH.
    destruct (keq (fst y) k) eqn:Ey; [|reflexivity].
    destruct (keq (fst x) k) eqn:Ex; [|reflexivity].
    exfalso. unfold keq, key_leb in *.
    apply andb_true_iff in Ey as [Ey1 Ey2]. apply andb_true_iff in Ex as [Ex1 Ex2].
    apply Z.eqb_eq in Ey1, Ey2, Ex1, Ex2.
    rewrite Ex1, Ex2, <- Ey1, <- Ey2, Z.eqb_refl, Z.leb_refl, orb_true_r in Eyx. discriminate.
Qed.

Lemma filter_isort : forall k l,
  filter (fun y => keq (fst y) k) (isort l) = filter (fun y => keq (fst y) k) l.
Proof.
  intros k. induction l as [|x r IH]; [reflexivity|]. simpl. rewrite filter_insert, IH. reflexivity.
Qed.

(** X10: the sort is stable: the fragments with any given key come out in
    their input order. *)
Theorem sorted_docs_stable : forall docs L k, sorted_docs docs = Some L ->
  filter (key_is k) L = filter (key_is k) docs.
Proof.
  intros docs L k H. unfold sorted_docs in H. destruct (keyed docs) as [kd|] eqn:E; [|discriminate].
  injection H as <-. destruct (keyed_spec docs kd E) as [Hm Hk].
  rewrite <- Hm. rewrite !filter_map_swap.
  assert (Hx : forall l, incl l kd ->
            filter (fun x => key_is k (snd x)) l = filter (fun y => keq (fst y) k) l).
  { intros l Hl. apply filter_ext_in. intros x Hin. rewrite Forall_forall in Hk.
    unfold key_is. rewrite (Hk x (Hl x Hin)). reflexivity. }
  rewrite (Hx kd (incl_refl _)), Hx, filter_isort; [reflexivity|].
  intros x Hin. apply (Permutation_in x (isort_perm kd)). exact Hin.
Qed.

Lemma sorted_docs_stable_witness :
  filter (key_is (2, 1)%Z) (map snd (isort (match keyed dup_docs with Some kd => kd | None => [] end)))
  = filter (key_is (2, 1)%Z) dup_docs.
Proof. apply sorted_docs_stable. reflexivity. Defined.

(** ** Results of the whole pass *)

Lemma keyed_some : forall docs, (forall d, In d docs -> para_index (metadata d) <> None) ->
  exists kd, keyed docs = Some kd.
Proof.
  intros docs. induction docs as [|x r IH]; intros H; [exists []; reflexivity|]. simpl. unfold sort_key.
  destruct (para_index (metadata x)) as [p|] eqn:E; [|exfalso; exact (H x (or_introl eq_refl) E)].
  destruct IH as [kr ->]; [intros y Hy; apply H; right; exact Hy|]. eexists; reflexivity.
Qed.

Lemma step_some : forall st d, para_index (metadata d) <> None ->
  (forall m, current st = Some m -> para_index m <> None) ->
  exists st', step st d = Some st' /\ (forall m, current st' = Some m -> para_index m <> None).
Proof.
  intros st d Hd Hc. unfold step.
  destruct (str_eqb _ []); [exists st; split; [reflexivity | exact Hc]|].
  destruct (mem _ _); [exists st; split; [reflexivity | exact Hc]|].
  assert (Hs : exists b, should_continue_paragraph (metadata d) (current st) = Some b).
  { unfold should_continue_paragraph. destruct (current st) as [pm|] eqn:E; [|eexists; reflexivity].
    destruct (para_index (metadata d)) as [a|]; [|contradiction].
    destruct (para_index pm) as [b|] eqn:Eb; [eexists; reflexivity|]. exfalso. exact (Hc pm eq_refl Eb). }
  destruct Hs as [b Hb].
  destruct (determine_section_type _ _); try (rewrite Hb; destruct b);
    eexists; split; try reflexivity; simpl; intros m0 Hm0; try discriminate;
    injection Hm0 as <-; exact Hd.
Qed.

Lemma run_some : forall L st, (forall d, In d L -> para_index (metadata d) <> None) ->
  (forall m, current st = Some m -> para_index m <> None) ->
  exists st', run st L = Some st'.
Proof.
  induction L as [|d r IH]; intros st H Hc; [eexists; reflexivity|]. simpl.
  destruct (step_some st d (H d (or_introl eq_refl)) Hc) as [st' [-> Hc']].
  apply IH; [intros x Hx; apply H; right; exact Hx | exact Hc'].
Qed.

Lemma process_total : forall docs, (forall d, In d docs -> para_index (metadata d) <> None) ->
  exists L st, sorted_docs docs = Some L /\ run init_state L = Some st /\
    process_sequential_sections docs = Some (finish st).
Proof.
  intros docs H. destruct (keyed_some docs H) as [kd Hk].
  assert (Hs : sorted_docs docs = Some (map snd (isort kd))) by (unfold sorted_docs; rewrite Hk; reflexivity).
  destruct (sorted_docs_spec _ _ Hs) as [Hp _].
  destruct (run_some (map snd (isort kd)) init_state) as [st Hr].
  { intros d Hin. apply H. exact (Permutation_in d Hp Hin). }
  { intros m Hm. discriminate. }
  exists (map snd (isort kd)), st. split; [exact Hs|]. split; [exact Hr|].
  unfold process_sequential_sections. rewrite Hs, Hr. reflexivity.
Qed.

Lemma process_none_malformed : forall docs, process_sequential_sections docs = None ->
  exists d, In d docs /\ para_index (metadata d) = None.
Proof.
  intros docs H.
  destruct (existsb (fun d => match para_index (metadata d) with None => true | Some _ => false end)
              docs) eqn:E.
  - apply existsb_exists in E as [d [Hin Hd]]. exists d. split; [exact Hin|].
    destruct (para_index (metadata d)); [discriminate | reflexivity].
  - exfalso. destruct (process_total docs) as [L [st [_ [_ Hp]]]]; [|congruence].
    intros d Hin Hn. apply not_true_iff_false in E. apply E. apply existsb_exists.
    exists d. rewrite Hn. auto.
Qed.

Lemma process_malformed_none : forall docs d, In d docs -> para_index (metadata d) = None ->
  process_sequential_sections docs = None.
Proof.
  intros docs d Hin Hn. unfold process_sequential_sections, sorted_docs.
  rewrite (keyed_none docs d Hin Hn). reflexivity.
Qed.

(** X11: [process_sequential_sections] raises exactly when some fragment's
    [para] value is not an integer literal; otherwise it returns. *)
Theorem process_raises_iff : forall docs,
  process_sequential_sections docs = None <->
  exists d, In d docs /\ para_index (metadata d) = None.
Proof.
  intros docs. split; [apply process_none_malformed|].
  intros [d [Hin Hn]]. exact (process_malformed_none docs d Hin Hn).
Qed.

Lemma filter_all_false : forall {A} (p : A -> bool) l, (forall x, In x l -> p x = false) -> filter p l = [].
Proof.
  intros A p l H. induction l as [|x l IH]; [reflexivity|]. simpl.
  rewrite (H x (or_introl eq_refl)). apply IH. intros y Hy. apply H. right. exact Hy.
Qed.

(** X12: when every fragment has blank text (and every [para] parses), the
    result is the empty list of Sections. *)
Theorem process_blank_input : forall docs,
  (forall d, In d docs -> para_index (metadata d) <> None) ->
  (forall d, In d docs -> strip (page_content d) = []) ->
  process_sequential_sections docs = Some [].
Proof.
  intros docs Hp Hb. destruct (process_total docs Hp) as [L [st [Hs [Hr ->]]]].
  destruct (sorted_docs_spec _ _ Hs) as [Hperm _].
  rewrite <- run_filter_has_text, filter_all_false in Hr.
  - injection Hr as <-. reflexivity.
  - intros d Hin. unfold has_text. rewrite (Hb d (Permutation_in d Hperm Hin)). reflexivity.
Qed.

Lemma process_blank_input_witness :
  process_sequential_sections [frag "3" "2" None "   "; mkDoc no_meta []] = Some [].
Proof.
  apply process_blank_input; intros d Hin; simpl in Hin;
    destruct Hin as [<-|[<-|[]]]; vm_compute; first [discriminate | reflexivity].
Defined.

Lemma step_pending : forall st d st', step st d = Some st' ->
  (pending st' <= pending st + (if has_text d then 1 else 0))%nat.
Proof.
  intros st d st' H. unfold step in H. unfold has_text.
  destruct (str_eqb _ []); simpl; [injection H as <-; lia|].
  destruct (mem _ _); [injection H as <-; lia|].
  assert (Hf : length (flush st) = match current st with Some _ => 1 | None => 0 end%nat)
    by (unfold flush; destruct (current st); reflexivity).
  unfold pending.
  destruct (determine_section_type _ _);
    [| destruct (should_continue_paragraph _ _) as [[|]|]; [| |discriminate] | |];
    revert H; try case_include; intros H; injection H as <-; simpl; rewrite ?length_app, ?Hf;
    destruct (current st); simpl; lia.
Qed.

Lemma run_pending : forall L st st', run st L = Some st' ->
  (pending st' <= pending st + count has_text L)%nat.
Proof.
  induction L as [|d r IH]; intros st st' H; simpl in H; [injection H as <-; unfold count; simpl; lia|].
  destruct (step st d) as [s1|] eqn:E; [|discriminate].
  pose proof (step_pending _ _ _ E). specialize (IH _ _ H).
  unfold count in *. simpl. destruct (has_text d); simpl; lia.
Qed.

Lemma count_perm : forall {A} (p : A -> bool) l l', Permutation l l' -> count p l = count p l'.
Proof.
  intros A p l l' H. unfold count. induction H; simpl; try reflexivity.
  - destruct (p x); simpl; lia.
  - destruct (p x), (p y); simpl; lia.
  - lia.
Qed.

(** X13: there are never more Sections than fragments with non-blank text. *)
Theorem process_length : forall docs secs, process_sequential_sections docs = Some secs ->
  (length secs <= count has_text docs)%nat.
Proof.
  intros docs secs H. unfold process_sequential_sections in H.
  destruct (sorted_docs docs) as [L|] eqn:Hs; [|discriminate].
  destruct (run init_state L) as [st|] eqn:Hr; [|discriminate]. injection H as <-.
  destruct (sorted_docs_spec _ _ Hs) as [Hperm _].
  pose proof (run_pending _ _ _ Hr). rewrite <- (count_perm has_text _ _ Hperm).
  unfold finish. rewrite length_app.
  assert (length (flush st) = match current st with Some _ => 1 | None => 0 end%nat)
    by (unfold flush; destruct (current st); reflexivity).
  unfold pending in *. simpl in *. lia.
Qed.

Lemma process_length_witness :
  process_sequential_sections dup_docs = Some (match process_sequential_sections dup_docs with Some s => s | None => [] end) /\
  (length (match process_sequential_sections dup_docs with Some s => s | None => [] end) <= count has_text dup_docs)%nat.
Proof.
  split; [vm_compute; reflexivity|]. apply (process_length dup_docs). vm_compute. reflexivity.
Defined.

Lemma lstrip_app_ne : forall a b, lstrip a <> [] -> lstrip (a ++ b) = lstrip a ++ b.
Proof.
  induction a as [|c a IH]; intros b H; [contradiction|]. simpl in *.
  destruct (is_space c); [apply IH; exact H | reflexivity].
Qed.

Lemma rstrip_app_ne : forall a b, rstrip b <> [] -> rstrip (a ++ b) = a ++ rstrip b.
Proof.
  intros a b H. unfold rstrip in *. rewrite rev_app_distr, lstrip_app_ne.
  - rewrite rev_app_distr, rev_involutive. reflexivity.
  - intros E. apply H. rewrite E. reflexivity.
Qed.

Lemma join_clean : forall parts, parts <> [] -> Forall clean_part parts ->
  clean_part (join [" "%char] parts).
Proof.
  induction parts as [|p r IH]; intros Hne H; [contradiction|]. inversion H as [|? ? [Hp1 [Hp2 Hp3]] Hr]; subst.
  destruct r as [|q r]; [repeat split; assumption|].
  destruct (IH ltac:(discriminate) Hr) as [Hj1 [Hj2 Hj3]].
  change (join [" "%char] (p :: q :: r)) with (p ++ [" "%char] ++ join [" "%char] (q :: r)).
  set (J := join [" "%char] (q :: r)) in *.
  split; [destruct p; [contradiction | discriminate]|]. split.
  - rewrite lstrip_app_ne by (rewrite Hp2; exact Hp1). rewrite Hp2. reflexivity.
  - assert (Hs : rstrip ([" "%char] ++ J) = [" "%char] ++ J).
    { rewrite rstrip_app_ne by (rewrite Hj3; exact Hj1). rewrite Hj3. reflexivity. }
    rewrite rstrip_app_ne by (rewrite Hs; discriminate). rewrite Hs. reflexivity.
Qed.

Lemma rstrip_idem : forall s, rstrip (rstrip s) = rstrip s.
Proof. intros s. unfold rstrip. rewrite rev_involutive, lstrip_idem. reflexivity. Qed.

Lemma strip_clean_part : forall s, strip s <> [] -> clean_part (strip s).
Proof.
  intros s H. split; [exact H|]. split; [apply lstrip_strip|].
  unfold strip. apply rstrip_idem.
Qed.

Lemma clean_part_strip : forall c, clean_part c -> strip c = c.
Proof. intros c [_ [H1 H2]]. unfold strip. rewrite H1, H2. reflexivity. Qed.

Lemma determine_header_len : forall m c, determine_section_type m c = Header ->
  (length (strip c) < 200)%nat.
Proof.
  intros m c. unfold determine_section_type. destruct (title_hint m).
  - destruct (_ && _) eqn:E; [|discriminate]. intros _.
    apply andb_true_iff in E as [E _]. apply Nat.ltb_lt in E. exact E.
  - destruct (is_table_content c); [discriminate|]. destruct (is_figure_content c); discriminate.
Qed.

Lemma flush_shape : forall st, pass_shape st -> Forall section_shape (flush st).
Proof.
  intros st [_ [Hb Hc]]. unfold flush. destruct (current st) as [pm|] eqn:E; [|constructor].
  constructor; [|constructor].
  assert (Hne : buffer st <> []) by (apply Hc; discriminate).
  destruct (join_clean _ Hne Hb) as [J1 [J2 J3]].
  unfold section_shape, create_paragraph_section; simpl.
  split; [exact J1|]. split; [apply clean_part_strip; repeat split; assumption|].
  split; [reflexivity|]. split; [intros [H|H]; discriminate | intros H; discriminate].
Qed.

Lemma make_section_shape : forall m c ty, clean_part c ->
  determine_section_type m c = ty -> should_include_content ty c = true ->
  section_shape (make_section m c ty).
Proof.
  intros m c ty Hc Hty Hi. pose proof (clean_part_strip c Hc) as Hs.
  unfold section_shape, make_section; simpl.
  split; [apply Hc|]. split; [exact Hs|]. split; [reflexivity|]. split.
  - intros Htf. destruct Htf as [-> | ->]; unfold should_include_content in Hi;
      apply andb_true_iff in Hi as [E1 E2]; apply Nat.ltb_lt in E1; apply negb_true_iff in E2;
      rewrite Hs in E1; split; assumption.
  - intros ->. pose proof (determine_header_len _ _ Hty) as Hl. rewrite Hs in Hl. exact Hl.
Qed.

Lemma step_shape : forall st d st', step st d = Some st' -> pass_shape st -> pass_shape st'.
Proof.
  intros st d st' H Hsh. pose proof (flush_shape st Hsh) as Hf.
  destruct Hsh as [Hs [Hb Hc]]. unfold step in H. cbv zeta in H.
  set (c := strip (page_content d)) in *.
  destruct (str_eqb c []) eqn:Eb; [injection H as <-; repeat split; assumption|].
  assert (Hcp : clean_part c).
  { apply strip_clean_part. intros E. fold c in E. rewrite E in Eb. discriminate. }
  destruct (mem _ _); [injection H as <-; repeat split; assumption|].
  destruct (determine_section_type (metadata d) c) eqn:Ety;
    [| destruct (should_continue_paragraph _ _) as [[|]|]; [| |discriminate] | |].
  2: { injection H as <-. split; [exact Hs|].
       split; [apply Forall_app; split; [exact Hb | constructor; [exact Hcp | constructor]]|].
       simpl. intros _. destruct (buffer st); discriminate. }
  2: { injection H as <-. split; [simpl; apply Forall_app; split; assumption|].
       split; [constructor; [exact Hcp | constructor]|]. simpl. intros _. discriminate. }
  all: revert H; destruct (should_include_content _ c) eqn:Ei; intros H; injection H as <-;
    (split; [simpl | split; [constructor | simpl; intros N; exfalso; apply N; reflexivity]]);
    [apply Forall_app; split; [apply Forall_app; split; assumption
                              | constructor; [apply make_section_shape; assumption | constructor]]
    | apply Forall_app; split; assumption].
Qed.

Lemma run_shape : forall L st st', run st L = Some st' -> pass_shape st -> pass_shape st'.
Proof.
  induction L as [|d r IH]; intros st st' H Hs; simpl in H; [injection H as <-; exact Hs|].
  destruct (step st d) as [s1|] eqn:E; [|discriminate].
  exact (IH _ _ H (step_shape _ _ _ E Hs)).
Qed.

(** X14: every emitted Section has non-empty text without surrounding
    whitespace, [content_length] equal to the length of its text; a table or
    figure Section has more than 50 characters and is not purely tabular;
    a header Section has fewer than 200 characters. *)
Theorem process_section_shape : forall docs secs,
  process_sequential_sections docs = Some secs -> Forall section_shape secs.
Proof.
  intros docs secs H. unfold process_sequential_sections in H.
  destruct (sorted_docs docs) as [L|]; [|discriminate].
  destruct (run init_state L) as [st|] eqn:Hr; [|discriminate]. injection H as <-.
  assert (Hsh : pass_shape st).
  { apply (run_shape L init_state); [exact Hr|].
    split; [constructor|]. split; [constructor|]. intros N. exfalso. apply N. reflexivity. }
  unfold finish. apply Forall_app. split; [apply Hsh | apply flush_shape; exact Hsh].
Qed.

Lemma process_section_shape_witness :
  process_sequential_sections merged_docs =
    Some (match process_sequential_sections merged_docs with Some s => s | None => [] end) /\
  Forall section_shape (match process_sequential_sections merged_docs with Some s => s | None => [] end).
Proof.
  split; [vm_compute; reflexivity|]. apply (process_section_shape merged_docs). vm_compute. reflexivity.
Defined.

(** ** The output file *)

(** X15: no text is written to [output_path] exactly when the loader
    raises, no document is loaded, some fragment's [para] value is not an
    integer literal (the [ValueError] is caught and printed), or
    [output_path] cannot be opened and written. *)
Theorem extract_nothing_written_iff : forall e pdf_path output_path,
  extract_pdf_with_grobid_sequential e pdf_path output_path = None <->
  load e pdf_path = None \/ load e pdf_path = Some [] \/
  (exists docs d, load e pdf_path = Some docs /\ In d docs /\ para_index (metadata d) = None) \/
  can_write e output_path = false.
Proof.
  intros e pdf_path output_path. unfold extract_pdf_with_grobid_sequential.
  destruct (load e pdf_path) as [[|d0 r]|]; [split; auto | | split; auto].
  destruct (process_sequential_sections (d0 :: r)) as [secs|] eqn:E.
  - destruct (can_write e output_path) eqn:W.
    + split; [discriminate|]. intros [H|[H|[[docs [d [Hl [Hin Hn]]]]|H]]];
        try discriminate. injection Hl as <-.
      rewrite (process_malformed_none _ d Hin Hn) in E. discriminate.
    + split; [intros _; right; right; right; reflexivity | reflexivity].
  - split; [|reflexivity]. intros _. right. right. left.
    destruct (process_none_malformed _ E) as [d [Hin Hn]]. exists (d0 :: r), d. auto.
Qed.

(** X16: when the loader returns a non-empty list of fragments that all
    have blank text (and [para] values that parse) and [output_path] can be
    written, the output file is empty. *)
Theorem extract_blank_input_empty_file : forall e pdf_path output_path d0 r,
  load e pdf_path = Some (d0 :: r) -> can_write e output_path = true ->
  (forall d, In d (d0 :: r) -> para_index (metadata d) <> None) ->
  (forall d, In d (d0 :: r) -> strip (page_content d) = []) ->
  extract_pdf_with_grobid_sequential e pdf_path output_path = Some [].
Proof.
  intros e pdf_path output_path d0 r Hl Hw Hp Hb. unfold extract_pdf_with_grobid_sequential.
  rewrite Hl.
  destruct (process_total (d0 :: r) Hp) as [L [st [Hs [Hr E]]]]. rewrite E, Hw.
  destruct (sorted_docs_spec _ _ Hs) as [Hperm _].
  rewrite <- run_filter_has_text, filter_all_false in Hr.
  - injection Hr as <-. reflexivity.
  - intros d Hin. unfold has_text. rewrite (Hb d (Permutation_in d Hperm Hin)). reflexivity.
Qed.

Lemma extract_blank_input_empty_file_witness :
  extract_pdf_with_grobid_sequential
    (mkEnv (fun _ => Some [frag "1" "1" None " "; frag "1" "2" None ""]) (fun _ => true))
    (lit "guideline.pdf") (lit "guideline.txt") = Some [].
Proof.
  apply (extract_blank_input_empty_file _ _ _ (frag "1" "1" None " ") [frag "1" "2" None ""]);
    [reflexivity | reflexivity | |];
    intros d Hin; simpl in Hin;
    destruct Hin as [<-|[<-|[]]]; vm_compute; first [discriminate | reflexivity].
Defined.

Lemma format_same_title : forall g acc t i,
  forallb (fun x => str_eqb (title x) t) g = true ->
  fold_left format_step g (mkFmt acc (Some t) i) =
  mkFmt (acc ++ concat (map (fun x => content x ++ nl ++ nl) g)) (Some t) i.
Proof.
  induction g as [|x g IH]; intros acc t i H; [simpl; rewrite app_nil_r; reflexivity|].
  simpl in H. apply andb_true_iff in H as [Hx Hg]. cbn [fold_left].
  replace (format_step (mkFmt acc (Some t) i) x) with (mkFmt (acc ++ (content x ++ nl ++ nl)) (Some t) i)
    by (unfold format_step; simpl; rewrite Hx; reflexivity).
  rewrite (IH _ _ _ Hg). cbn [map concat]. rewrite <- app_assoc. reflexivity.
Qed.

Lemma format_runs_gen : forall runs acc prev i, runs_okb prev runs = true ->
  formatted (fold_left format_step (concat runs) (mkFmt acc prev i)) = acc ++ render_runs (i + 1) runs /\
  section_index (fold_left format_step (concat runs) (mkFmt acc prev i)) = (i + Z.of_nat (length runs))%Z.
Proof.
  induction runs as [|g rs IH]; intros acc prev i H.
  - simpl. rewrite app_nil_r. split; [reflexivity | lia].
  - destruct g as [|s g]; [discriminate|]. simpl in H.
    apply andb_true_iff in H as [H Hrs]. apply andb_true_iff in H as [Hnew Hg].
    change (concat ((s :: g) :: rs)) with (s :: (g ++ concat rs)). cbn [fold_left].
    assert (Hs : format_step (mkFmt acc prev i) s =
                 mkFmt (acc ++ header_block (i + 1) s ++ (content s ++ nl ++ nl)) (Some (title s)) (i + 1)).
    { unfold format_step. simpl. destruct prev; [rewrite Hnew|]; reflexivity. }
    rewrite Hs, fold_left_app, format_same_title by exact Hg.
    destruct (IH ((acc ++ header_block (i + 1) s ++ (content s ++ nl ++ nl)) ++
                  concat (map (fun x => content x ++ nl ++ nl) g)) (Some (title s)) (i + 1)%Z Hrs)
      as [H1 H2].
    rewrite H1, H2. split.
    + cbn [render_runs map concat]. rewrite <- !app_assoc. reflexivity.
    + cbn [length]. lia.
Qed.

(** X17: for Sections that form maximal runs of equal titles, the output
    file has, per run [i = 1, 2, ...], one header with [i], the run's title
    and the page of its first Section, followed by each Section's text and
    a blank line; the last Section number is the number of runs. *)
Theorem format_sections_runs : forall runs, runs_okb None runs = true ->
  formatted (format_sections (concat runs)) = render_runs 1 runs /\
  section_index (format_sections (concat runs)) = Z.of_nat (length runs).
Proof.
  intros runs H. unfold format_sections.
  destruct (format_runs_gen runs [] None 0%Z H) as [H1 H2]. split; [exact H1 | rewrite H2; lia].
Qed.

Lemma format_sections_runs_witness :
  formatted (format_sections (concat sample_runs)) = render_runs 1 sample_runs /\
  section_index (format_sections (concat sample_runs)) = 2%Z.
Proof. apply format_sections_runs. vm_compute. reflexivity. Defined.
